(** * Span highlighting and extractive summaries of the NLP assistant

    A shallow embedding of the two text transformations of the repository:
    - [highlightEntities] and [createEntityChart] of [script.js], which wrap
      every detected entity of a text in a [<span>] and count entities per
      label;
    - [mockSummarizeText] and its caller [summarizeText] of the
      [NLPAssistant] class, which cut a text into sentences and keep the
      first three.

    JavaScript strings are modelled as lists of code units.  The model
    covers the code units 0..255 (the Latin-1 range, Rocq's [ascii]); case
    folding, word characters and white space are defined for that range as
    ECMAScript defines them. *)

From Stdlib Require Import Ascii String List ZArith QArith Qround Lia.
From Stdlib Require Import Sorting.Sorted Sorting.Permutation.
From stdpp Require Import base list gmap.

Set Default Proof Using "Type".

(** ** Strings *)

Abbreviation jsstring := (list ascii).

Declare Scope js_scope.
Delimit Scope js_scope with js.
#[warnings="-via-type-remapping,-via-type-mismatch"]
String Notation list string_of_list_byte list_byte_of_string
  (via string mapping [[nil] => EmptyString, [cons] => String]) : js_scope.

(** The double quote, which a string literal cannot hold. *)
Definition dq : ascii := ascii_of_nat 34.

Module JS.

(** *** Code units *)

Definition code (c : ascii) : nat := nat_of_ascii c.

Definition in_range (lo hi : nat) (c : ascii) : bool :=
  (lo <=? code c) && (code c <=? hi).

(** [\w] without the [u] flag: [[A-Za-z0-9_]]. *)
Definition isWordChar (c : ascii) : bool :=
  in_range 97 122 c || in_range 65 90 c || in_range 48 57 c || (code c =? 95).

(** [String.prototype.toLowerCase] on one code unit: [A-Z] and the
    Latin-1 capitals U+00C0..U+00DE (U+00D7, the multiplication sign, has
    no case). *)
Definition lower_unit (c : ascii) : ascii :=
  if in_range 65 90 c || (in_range 192 222 c && negb (code c =? 215))
  then ascii_of_nat (code c + 32) else c.

Definition toLowerCase (s : jsstring) : jsstring := List.map lower_unit s.

(** [Canonicalize] of a case-insensitive, non-unicode regular expression:
    the upper-case mapping of the code unit when that is again one code
    unit.  In the Latin-1 range this folds [a-z] and U+00E0..U+00FE (but
    not the division sign U+00F7).  U+00B5 and U+00FF map to code units
    above 255 that no other unit of the range maps to, and U+00DF has a
    two-unit upper case; each of them is only equal to itself, which the
    identity expresses inside the range. *)
Definition Canonicalize (c : ascii) : ascii :=
  if in_range 97 122 c || (in_range 224 254 c && negb (code c =? 247))
  then ascii_of_nat (code c - 32) else c.

(** White space and line terminators, as [trim] strips them:
    TAB, LF, VT, FF, CR, SP and NBSP. *)
Definition isWhiteSpace (c : ascii) : bool :=
  in_range 9 13 c || (code c =? 32) || (code c =? 160).

Definition ascii_eqb (a b : ascii) : bool := Ascii.eqb a b.

(** *** String methods *)

(** [s.substring(i, j)] for [i <= j]. *)
Definition substring {A} (s : list A) (i j : nat) : list A :=
  take (j - i) (drop i s).

Fixpoint startsWith (pat s : jsstring) : bool :=
  match pat, s with
  | [], _ => true
  | _ :: _, [] => false
  | p :: pat', c :: s' => ascii_eqb p c && startsWith pat' s'
  end.

(** [s.lastIndexOf(pat)]: the greatest offset at which [pat] occurs in
    [s], and [-1] when there is none.  The search starts at
    [length s - length pat] and moves left. *)
Fixpoint lastIndexOf_from (s pat : jsstring) (k : nat) : Z :=
  if startsWith pat (drop k s) then Z.of_nat k
  else match k with
       | O => (-1)%Z
       | S k' => lastIndexOf_from s pat k'
       end.

Definition lastIndexOf (s pat : jsstring) : Z :=
  if length pat <=? length s
  then lastIndexOf_from s pat (length s - length pat)
  else (-1)%Z.

Fixpoint dropWhile {A} (p : A -> bool) (s : list A) : list A :=
  match s with
  | [] => []
  | c :: s' => if p c then dropWhile p s' else s
  end.

(** [s.trim()]. *)
Definition trim (s : jsstring) : jsstring :=
  rev (dropWhile isWhiteSpace (rev (dropWhile isWhiteSpace s))).

(** [s.split(sep)] for a separator of one code unit: the pieces between
    the occurrences of [sep]; a string without [sep] (the empty string
    too) gives one piece. *)
Fixpoint split (sep : ascii) (s : jsstring) : list jsstring :=
  match s with
  | [] => [[]]
  | c :: s' =>
      if ascii_eqb c sep then [] :: split sep s'
      else match split sep s' with
           | piece :: pieces => (c :: piece) :: pieces
           | [] => [[c]]
           end
  end.

(** [pieces.join(sep)]. *)
Fixpoint join (sep : jsstring) (pieces : list jsstring) : jsstring :=
  match pieces with
  | [] => []
  | piece :: rest =>
      match rest with
      | [] => piece
      | _ :: _ => piece ++ sep ++ join sep rest
      end
  end.

(** *** Numbers

    The quotient of two lengths.  A finite quotient is kept exact (the
    double the program holds is its correctly rounded image, and is zero
    only when the exact quotient is); division by zero gives [Infinity],
    or [NaN] for [0/0], and raises nothing. *)
Inductive number :=
  | Finite (q : Q)
  | Infinity
  | NaN.

Definition div (a b : nat) : number :=
  match b, a with
  | O, O => NaN
  | O, S _ => Infinity
  | S _, _ => Finite (Z.of_nat a # Pos.of_nat b)
  end.

Definition is_zero (x : number) : bool :=
  match x with
  | Finite q => (Qnum q =? 0)%Z
  | _ => false
  end.

(** *** [Array.prototype.sort]

    The sort is stable, and with a comparator that is the difference of
    two keys it has one result, whichever algorithm the engine runs; an
    insertion sort computes it.  [cmp a b <= 0] keeps [a] before [b]. *)
Section Sort.
Context {A : Type} (cmp : A -> A -> Z).

Fixpoint insert_sorted (x : A) (l : list A) : list A :=
  match l with
  | [] => [x]
  | y :: l' =>
      if (cmp x y <=? 0)%Z then x :: l else y :: insert_sorted x l'
  end.

Fixpoint sort (l : list A) : list A :=
  match l with
  | [] => []
  | x :: l' => insert_sorted x (sort l')
  end.
End Sort.

(** *** Regular expressions

    The fragment the program builds: a sequence of word-boundary
    assertions [\b], single characters and character classes, matched
    with or without the [i] flag.  Such a pattern has no alternative and
    no quantifier, so matching at an offset needs no backtracking. *)
Inductive atom :=
  | WordBoundary
  | Char (c : ascii)
  | Class (cs : list ascii).

Record regex := RegExp { atoms : list atom; ignoreCase : bool }.

(** The syntax characters of a pattern: [^ $ \ . * + ? ( ) [ ] { } |]. *)
Definition isSyntaxCharacter (c : ascii) : bool :=
  existsb (ascii_eqb c) "^$\.*+?()[]{}|"%js.

(** Reading a pattern source.  [\b] is the assertion, a backslash before
    a syntax character is an identity escape, and any character that is
    not a syntax character stands for itself.  [None]: the source is
    outside the fragment (the engine would build another matcher, or
    throw a [SyntaxError]). *)
Fixpoint parse (src : jsstring) : option (list atom) :=
  match src with
  | [] => Some []
  | c :: rest =>
      if ascii_eqb c "\"%char then
        match rest with
        | [] => None
        | d :: rest' =>
            if ascii_eqb d "b"%char then cons WordBoundary <$> parse rest'
            else if isSyntaxCharacter d then cons (Char d) <$> parse rest'
            else None
        end
      else if isSyntaxCharacter c then None
      else cons (Char c) <$> parse rest
  end.

(** [new RegExp(src, flags)]; the [g] flag is the loop of [replace]. *)
Definition new_RegExp (src : jsstring) (i : bool) : option regex :=
  (fun a => RegExp a i) <$> parse src.

Definition same_char (i : bool) (a b : ascii) : bool :=
  if i then ascii_eqb (Canonicalize a) (Canonicalize b) else ascii_eqb a b.

(** [IsWordChar(e)]: offsets outside the string are not word characters. *)
Definition isWordCharAt (s : jsstring) (k : Z) : bool :=
  if (k <? 0)%Z then false
  else match s !! Z.to_nat k with
       | Some c => isWordChar c
       | None => false
       end.

(** The assertion [\b] at offset [e]. *)
Definition atWordBoundary (s : jsstring) (e : nat) : bool :=
  xorb (isWordCharAt s (Z.of_nat e - 1)) (isWordCharAt s (Z.of_nat e)).

(** The matcher at offset [e]: the end offset of the match, if any. *)
Fixpoint match_atoms (i : bool) (p : list atom) (s : jsstring) (e : nat)
  : option nat :=
  match p with
  | [] => Some e
  | WordBoundary :: p' =>
      if atWordBoundary s e then match_atoms i p' s e else None
  | Char c :: p' =>
      match s !! e with
      | Some d => if same_char i c d then match_atoms i p' s (S e) else None
      | None => None
      end
  | Class cs :: p' =>
      match s !! e with
      | Some d =>
          if existsb (fun c => same_char i c d) cs
          then match_atoms i p' s (S e) else None
      | None => None
      end
  end.

Definition exec_at (r : regex) (s : jsstring) (e : nat) : option nat :=
  match_atoms (ignoreCase r) (atoms r) s e.

(** The matches of a global regular expression in [s], as the loop of
    [RegExp.prototype[Symbol.replace]] collects them: the search resumes
    at [lastIndex], which a match moves to its end, and one further when
    the match is empty; it stops once [lastIndex] passes the end of [s].
    Every turn advances [lastIndex], so [length s + 2] turns are enough. *)
Fixpoint scan (fuel : nat) (r : regex) (s : jsstring) (lastIndex : nat)
  : list (nat * nat) :=
  match fuel with
  | O => []
  | S fuel' =>
      if length s <? lastIndex then []
      else match exec_at r s lastIndex with
           | Some e =>
               (lastIndex, e)
                 :: scan fuel' r s (if e =? lastIndex then S lastIndex else e)
           | None => scan fuel' r s (S lastIndex)
           end
  end.

Definition matches (r : regex) (s : jsstring) : list (nat * nat) :=
  scan (length s + 2) r s 0.

(** The matches from [lastIndex] on. *)
Definition matches_from (r : regex) (s : jsstring) (lastIndex : nat)
  : list (nat * nat) :=
  scan (length s + 2 - lastIndex) r s lastIndex.

(** [GetSubstitution] for a pattern without capture groups: [$$] is a
    dollar, [$&] the match, [$`] the text before it and [$'] the text
    after it; a dollar before anything else, a digit included, stands for
    itself. *)
Fixpoint GetSubstitution (matched before after template : jsstring)
  : jsstring :=
  match template with
  | [] => []
  | c :: rest =>
      if ascii_eqb c "$"%char then
        match rest with
        | [] => [c]
        | d :: rest' =>
            if ascii_eqb d "$"%char
            then "$"%char :: GetSubstitution matched before after rest'
            else if ascii_eqb d "&"%char
            then matched ++ GetSubstitution matched before after rest'
            else if ascii_eqb d "`"%char
            then before ++ GetSubstitution matched before after rest'
            else if ascii_eqb d "'"%char
            then after ++ GetSubstitution matched before after rest'
            else c :: GetSubstitution matched before after rest
        end
      else c :: GetSubstitution matched before after rest
  end.

(** The result of a replacement: the text between the matches, with
    [repl p e] in place of the match from [p] to [e].  [next] is
    [nextSourcePosition]. *)
Fixpoint splice {A} (s : list A) (repl : nat -> nat -> list A) (next : nat)
  (ms : list (nat * nat)) : list A :=
  match ms with
  | [] => drop next s
  | (p, e) :: ms' =>
      if next <=? p
      then substring s next p ++ repl p e ++ splice s repl e ms'
      else splice s repl next ms'
  end.

(** [s.replace(r, template)] for a global [r] and a string [template]. *)
Definition replace (r : regex) (template : jsstring) (s : jsstring)
  : jsstring :=
  splice s
    (fun p e => GetSubstitution (substring s p e) (take p s) (drop e s) template)
    0 (matches r s).

End JS.

(** ** [script.js]: highlighting the entities of a text *)

Module Script.

(** An entity, as [nlp.extractEntities] returns it. *)
Record entity := Entity {
  text : jsstring;
  label : jsstring;
  description : jsstring
}.

(** [/[.*+?^${}()|[\]\\]/g], the class of the characters to escape. *)
Definition metacharacters : JS.regex :=
  JS.RegExp [JS.Class ".*+?^${}()|[]\"%js] false.

(** [entity.text.replace(/[.*+?^${}()|[\]\\]/g, '\\$&')]. *)
Definition escaped (t : jsstring) : jsstring :=
  JS.replace metacharacters "\$&"%js t.

(** The source of the pattern: the escaped text between two [\b]. *)
Definition pattern_source (e : entity) : jsstring :=
  "\b"%js ++ escaped (text e) ++ "\b"%js.

(** The replacement: the entity's text inside a [span] that carries its
    label, in lower case, and its description. *)
Definition open_tag (e : entity) : jsstring :=
  ("<span class="%js ++ [dq] ++ "entity-highlight entity-"%js
     ++ JS.toLowerCase (label e) ++ [dq] ++ " title="%js ++ [dq]
     ++ description e ++ [dq]) ++ ">"%js.

Definition close_tag : jsstring := "</span>"%js.

Definition replacement (e : entity) : jsstring :=
  open_tag e ++ text e ++ close_tag.

(** The comparator of the sort: the entity whose text occurs last in the
    input comes first. *)
Definition by_last_occurrence (input : jsstring) (a b : entity) : Z :=
  (JS.lastIndexOf input (text b) - JS.lastIndexOf input (text a))%Z.

(** One turn of the [forEach]. *)
Definition highlight_one (highlightedText : option jsstring) (e : entity)
  : option jsstring :=
  h ← highlightedText;
  r ← JS.new_RegExp (pattern_source e) true;
  Some (JS.replace r (replacement e) h).

(** [highlightEntities(text, entities)].  The sort is in place: the second
    component is the caller's array as the call leaves it. *)
Definition highlightEntities (input : jsstring) (entities : list entity)
  : option (jsstring * list entity) :=
  let entities := JS.sort (by_last_occurrence input) entities in
  h ← foldl highlight_one (Some input) entities;
  Some (h, entities).

(** The property names every object inherits from [Object.prototype]. *)
Definition inherited_keys : list jsstring :=
  [ "constructor"%js; "__proto__"%js; "hasOwnProperty"%js;
    "isPrototypeOf"%js; "propertyIsEnumerable"%js; "toLocaleString"%js;
    "toString"%js; "valueOf"%js; "__defineGetter__"%js;
    "__defineSetter__"%js; "__lookupGetter__"%js; "__lookupSetter__"%js ].

(** [entityCounts[entity.label] = (entityCounts[entity.label] || 0) + 1].
    A label that names an inherited property reads that property instead
    of a count; such labels are outside the model ([None]). *)
Definition count_label (entityCounts : option (gmap jsstring nat))
  (e : entity) : option (gmap jsstring nat) :=
  m ← entityCounts;
  if bool_decide (label e ∈ inherited_keys) then None
  else Some (<[label e := default 0 (m !! label e) + 1]> m).

(** [createEntityChart(entities)]: the count that the [entityCounts]
    object holds for each label.  The order of the keys of the object,
    in which the chart gets its labels and values, is not modelled. *)
Definition createEntityChart (entities : list entity)
  : option (gmap jsstring nat) :=
  foldl count_label (Some ∅) entities.

(** *** The same run, with the provenance of every character

    Each character of the working text is either an untouched character
    of the input ([Plain]), a character of an entity's text inside a span
    ([Shown]), or a character of an inserted tag ([Markup]).  Matching
    only sees the characters. *)
Inductive role := Plain | Shown | Markup.

Definition traced := list (ascii * role).

Definition erase (w : traced) : jsstring := List.map fst w.

Definition mark (r : role) (s : jsstring) : traced :=
  List.map (fun c => (c, r)) s.

Definition is_markup (x : ascii * role) : bool :=
  match snd x with Markup => true | _ => false end.

Definition is_plain (x : ascii * role) : bool :=
  match snd x with Plain => true | _ => false end.

(** The texts of the segments, plain and annotated, in order. *)
Definition segment_text (w : traced) : jsstring :=
  erase (List.filter (fun x => negb (is_markup x)) w).

Definition traced_replacement (e : entity) (s : jsstring) (p q : nat)
  : traced :=
  let sub := JS.GetSubstitution (JS.substring s p q) (take p s) (drop q s) in
  mark Markup (sub (open_tag e)) ++ mark Shown (sub (text e))
    ++ mark Markup (sub close_tag).

Definition trace_one (w : option traced) (e : entity) : option traced :=
  w ← w;
  r ← JS.new_RegExp (pattern_source e) true;
  Some (JS.splice w (traced_replacement e (erase w)) 0
          (JS.matches r (erase w))).

Definition trace (input : jsstring) (entities : list entity)
  : option traced :=
  foldl trace_one (Some (mark Plain input))
    (JS.sort (by_last_occurrence input) entities).

(** The matches of one turn, and whether each of them satisfies [ok]. *)
Definition turn_matches (e : entity) (w : traced) : list (nat * nat) :=
  match JS.new_RegExp (pattern_source e) true with
  | Some r => JS.matches r (erase w)
  | None => []
  end.

Definition turn_ok (ok : entity -> traced -> bool) (e : entity) (w : traced)
  : bool :=
  forallb (fun m => ok e (JS.substring w (fst m) (snd m))) (turn_matches e w).

Fixpoint turns_ok (ok : entity -> traced -> bool) (es : list entity)
  (w : traced) : bool :=
  match es with
  | [] => true
  | e :: es' =>
      turn_ok ok e w &&
      match trace_one (Some w) e with
      | Some w' => turns_ok ok es' w'
      | None => true
      end
  end.

Definition run_ok (ok : entity -> traced -> bool) (input : jsstring)
  (entities : list entity) : bool :=
  turns_ok ok (JS.sort (by_last_occurrence input) entities) (mark Plain input).

(** No match of the run takes in a character of an inserted tag. *)
Definition no_markup (_ : entity) (m : traced) : bool :=
  forallb (fun x => negb (is_markup x)) m.

Definition avoids_markup : jsstring -> list entity -> bool :=
  run_ok no_markup.

(** Every match of the run lies in untouched text of the input. *)
Definition untouched (_ : entity) (m : traced) : bool := forallb is_plain m.

Definition only_plain : jsstring -> list entity -> bool := run_ok untouched.

(** Every match of the run is spelled like the text of its entity. *)
Definition spelled_alike (e : entity) (m : traced) : bool :=
  bool_decide (erase m = text e).

Definition same_spelling : jsstring -> list entity -> bool :=
  run_ok spelled_alike.

(** No text holds one of the tokens [$$], [$&], [$`] and [$'] that a
    replacement string expands. *)
Fixpoint token_free (t : jsstring) : bool :=
  match t with
  | [] => true
  | c :: rest =>
      match rest with
      | [] => true
      | d :: _ =>
          negb (JS.ascii_eqb c "$"%char &&
                existsb (JS.ascii_eqb d) "$&`'"%js) && token_free rest
      end
  end.

(** *** Notions used in the statements *)

(** What escaping does to one character. *)
Definition escape_unit (c : ascii) : jsstring :=
  if JS.isSyntaxCharacter c then ["\"%char; c] else [c].

(** The regular expression that searches for the text of [e] literally:
    the characters of the text between two word boundaries, with the [i]
    flag. *)
Definition literal (t : jsstring) : JS.regex :=
  JS.RegExp (JS.WordBoundary :: List.map JS.Char t ++ [JS.WordBoundary]) true.

(** The entities of label [l]. *)
Definition labelled (l : jsstring) (es : list entity) : list entity :=
  List.filter (fun e => bool_decide (label e = l)) es.

(** The text begins and ends with a word character. *)
Definition word_edged (t : jsstring) : bool :=
  match head t, last t with
  | Some a, Some b => JS.isWordChar a && JS.isWordChar b
  | _, _ => false
  end.

(** One turn of the [forEach], once the pattern is known to compile. *)
Definition wrap (h : jsstring) (e : entity) : jsstring :=
  JS.replace (literal (text e)) (replacement e) h.

End Script.

(** ** The [NLPAssistant] class: summaries *)

Module NLPAssistant.

Record summary_result := SummaryResult {
  summary : jsstring;
  original_length : nat;
  summary_length : nat;
  compression_ratio : JS.number;
  sentences_used : nat;
  total_sentences : nat
}.

(** [text.split('.').filter(s => s.trim().length > 0)]. *)
Definition sentences_of (text : jsstring) : list jsstring :=
  List.filter (fun s => 0 <? length (JS.trim s)) (JS.split "."%char text).

(** [sentences.slice(0, summaryLength)]. *)
Definition selected (text : jsstring) : list jsstring :=
  take (Nat.min 3 (length (sentences_of text))) (sentences_of text).

(** [mockSummarizeText(text)]. *)
Definition mockSummarizeText (text : jsstring) : summary_result :=
  let sentences := sentences_of text in
  let summaryLength := Nat.min 3 (length sentences) in
  let summary := JS.join ". "%js (take summaryLength sentences) ++ "."%js in
  {| summary := summary;
     original_length := length (JS.split " "%char text);
     summary_length := length (JS.split " "%char summary);
     compression_ratio := JS.div (length summary) (length text);
     sentences_used := summaryLength;
     total_sentences := length sentences |}.

(** [summarizeText()]: [value] is the content of the text area, which
    [getInputText] trims; an empty text is refused with an alert ([None])
    and [mockSummarizeText] is not called. *)
Definition summarizeText (value : jsstring) : option summary_result :=
  let text := JS.trim value in
  match text with
  | [] => None
  | _ :: _ => Some (mockSummarizeText text)
  end.

(** The number of space characters of a text. *)
Definition spaces (s : jsstring) : nat :=
  length (List.filter (fun c => JS.ascii_eqb c " "%char) s).

(** The fragment has a character that is not white space. *)
Definition has_text (s : jsstring) : bool := negb (forallb JS.isWhiteSpace s).

End NLPAssistant.

(** ** What the specification says, in its own words *)

Module Spec.

(** [pat] occurs in [s] at offset [k]. *)
Definition occurs_at (s pat : jsstring) (k : nat) : Prop :=
  JS.substring s k (k + length pat) = pat /\ k + length pat <= length s.

(** [k] is the last occurrence offset of [pat] in [s] ([-1]: none). *)
Definition last_occurrence (s pat : jsstring) (k : Z) : Prop :=
  (k = (-1)%Z /\ forall j, ~ occurs_at s pat j) \/
  ((0 <= k)%Z /\ occurs_at s pat (Z.to_nat k) /\
   forall j, Z.to_nat k < j -> ~ occurs_at s pat j).

(** The stretch from [p] to [q] of [s] is bounded by non-word characters
    or string edges. *)
Definition bounded (s : jsstring) (p q : nat) : Prop :=
  JS.isWordCharAt s (Z.of_nat p - 1) = false /\
  JS.isWordCharAt s (Z.of_nat q) = false.

(** Two texts are equal up to the case of their letters. *)
Definition same_letters (u v : jsstring) : Prop :=
  List.map JS.Canonicalize u = List.map JS.Canonicalize v.

(** The whitespace-delimited word count: the number of maximal runs of
    characters that are not white space. *)
Fixpoint words_from (in_word : bool) (s : jsstring) : nat :=
  match s with
  | [] => 0
  | c :: s' =>
      if JS.isWhiteSpace c then words_from false s'
      else (if in_word then 0 else 1) + words_from true s'
  end.

Definition word_count (s : jsstring) : nat := words_from false s.

(** The sentences: the text split on the period, each piece trimmed, the
    empty results dropped. *)
Definition sentences (text : jsstring) : list jsstring :=
  List.filter (fun s => 0 <? length s)
    (List.map JS.trim (JS.split "."%char text)).

(** The order of a list by descending key. *)
Definition descending {A} (key : A -> Z) (a b : A) : Prop :=
  (key b <= key a)%Z.

(** The comparator that is the difference of two keys, greater key
    first. *)
Definition key_comparator {A} (key : A -> Z) (a b : A) : Z :=
  (key b - key a)%Z.

(** The elements of key [k], in the order of the list. *)
Definition of_key {A} (key : A -> Z) (k : Z) (l : list A) : list A :=
  List.filter (fun a => (key a =? k)%Z) l.

End Spec.

(** ** The [NLPAssistant] class: questions, usage counters, classification *)

Module QuestionAnswering.

(** [s.includes(pat)]. *)
Definition includes (s pat : jsstring) : bool :=
  existsb (fun k => JS.startsWith pat (drop k s)) (seq 0 (S (length s))).

Record answer_result := AnswerResult {
  question : jsstring;
  answer : jsstring;
  confidence : JS.number;
  question_type : jsstring;
  context_length : nat
}.

Definition no_answer : jsstring :=
  "Based on the provided context, the answer would be found here."%js.

(** [sentences[0] || otherwise]: a missing or empty first element gives
    [otherwise]. *)
Definition first_or (sentences : list jsstring) (otherwise : jsstring)
  : jsstring :=
  match sentences with
  | [] => otherwise
  | [] :: _ => otherwise
  | (c :: s) :: _ => c :: s
  end.

(** [mockAnswerQuestion(context, question)].  [confidence] is the value of
    [0.75 + Math.random() * 0.2], which the model takes from outside. *)
Definition mockAnswerQuestion (confidence : JS.number)
  (context question : jsstring) : answer_result :=
  let sentences :=
    List.filter (fun s => 0 <? length (JS.trim s))
      (JS.split "."%char context) in
  let answer := first_or sentences no_answer in
  {| question := question;
     answer := answer;
     confidence := confidence;
     question_type :=
       if includes (JS.toLowerCase question) "what"%js then "what"%js
       else if includes (JS.toLowerCase question) "who"%js then "who"%js
       else if includes (JS.toLowerCase question) "when"%js then "when"%js
       else "general"%js;
     context_length := length context |}.

(** [answerQuestion()] of the class: [context] and [question] are the
    contents of the two fields; when either is blank the call alerts and
    answers nothing ([None]). *)
Definition answerQuestion (confidence : JS.number)
  (context question : jsstring) : option answer_result :=
  if (length (JS.trim context) =? 0) || (length (JS.trim question) =? 0)
  then None
  else Some (mockAnswerQuestion confidence context question).

End QuestionAnswering.

Module UsageStats.

(** [initializeUsageStats()]. *)
Definition initializeUsageStats : gmap jsstring nat :=
  <["Text Classification"%js := 0]>
    (<["Text Generation"%js := 0]>
       (<["Sentiment Analysis"%js := 0]> ∅)).

(** [trackUsage(toolName)]: a counter that exists is incremented, any
    other name is ignored.  A name that [Object.prototype] defines reads
    as an inherited property, not as a missing counter; such names are
    outside the model ([None]). *)
Definition trackUsage (usageStats : gmap jsstring nat) (toolName : jsstring)
  : option (gmap jsstring nat) :=
  if bool_decide (toolName ∈ Script.inherited_keys) then None
  else match usageStats !! toolName with
       | Some n => Some (<[toolName := S n]> usageStats)
       | None => Some usageStats
       end.

(** A series of calls, from the left. *)
Definition trackAll (usageStats : gmap jsstring nat)
  (toolNames : list jsstring) : option (gmap jsstring nat) :=
  foldl (fun stats name => stats ← stats; trackUsage stats name)
    (Some usageStats) toolNames.

(** The number of calls that name [tool]. *)
Definition calls (tool : jsstring) (toolNames : list jsstring) : nat :=
  length (List.filter (fun name => bool_decide (name = tool)) toolNames).

End UsageStats.

Module Classification.

Definition categories : list jsstring :=
  [ "technology"%js; "business"%js; "sports"%js; "health"%js;
    "education"%js; "entertainment"%js; "news"%js; "personal"%js ].

(** [category] is [None] where the program would hold [undefined]. *)
Record classification := Classified {
  category : option jsstring;
  confidence : JS.number;
  word_count : nat;
  text_length : nat
}.

(** [mockClassifyText(text)].  [random] is the first number drawn by
    [Math.random()]; its product by the number of categories, 8, is exact
    in binary floating point, and so is the floor.  [confidence] is the
    value of [0.6 + Math.random() * 0.4], which the model takes from
    outside. *)
Definition mockClassifyText (random : Q) (confidence : JS.number)
  (text : jsstring) : classification :=
  let index := Qfloor (random * inject_Z (Z.of_nat (length categories))) in
  {| category :=
       if (index <? 0)%Z then None else categories !! Z.to_nat index;
     confidence := confidence;
     word_count := length (JS.split " "%char text);
     text_length := length text |}.

(** [classifyText()]: the trimmed input, when it is not empty, is counted
    as a use and classified; an empty one is refused with an alert and
    changes nothing. *)
Definition classifyText (usageStats : gmap jsstring nat) (random : Q)
  (confidence : JS.number) (value : jsstring)
  : option (gmap jsstring nat * option classification) :=
  let text := JS.trim value in
  match text with
  | [] => Some (usageStats, None)
  | _ :: _ =>
      usageStats ← UsageStats.trackUsage usageStats "Text Classification"%js;
      Some (usageStats, Some (mockClassifyText random confidence text))
  end.

End Classification.

(** ** Notions used in further statements *)

Module Notions.

(** The sum of the counts of a chart. *)
Definition total (counts : gmap jsstring nat) : nat :=
  map_fold (fun _ count sum => count + sum) 0 counts.

(** The matches [m1] and [m2] do not overlap, [m1] first. *)
Definition before (m1 m2 : nat * nat) : Prop :=
  fst m1 < fst m2 /\ snd m1 <= fst m2.

(** A character of white space, or the period. *)
Definition blank_or_period (c : ascii) : bool :=
  JS.isWhiteSpace c || JS.ascii_eqb c "."%char.

End Notions.

(** * Facts about the built-ins *)

Section SortFacts.
Context {A : Type} (key : A -> Z).

Local Abbreviation cmp := (Spec.key_comparator key).

Lemma insert_sorted_perm (x : A) (l : list A) :
  Permutation (x :: l) (JS.insert_sorted cmp x l).
Proof.
  induction l as [|y l IH]; simpl; [reflexivity|].
  destruct (cmp x y <=? 0)%Z; [reflexivity|].
  rewrite perm_swap. now constructor.
Qed.

Lemma sort_perm (l : list A) : Permutation l (JS.sort cmp l).
Proof.
  induction l as [|x l IH]; simpl; [constructor|].
  rewrite <- insert_sorted_perm. now constructor.
Qed.

Lemma insert_sorted_sorted (x : A) (l : list A) :
  StronglySorted (Spec.descending key) l ->
  StronglySorted (Spec.descending key) (JS.insert_sorted cmp x l).
Proof.
  induction 1 as [|y l Hl IH Hy]; simpl.
  - repeat constructor.
  - destruct (Z.leb_spec (cmp x y) 0) as [Hc|Hc]; unfold Spec.key_comparator in Hc.
    + constructor; [now constructor|].
      constructor; [unfold Spec.descending; lia|].
      eapply Forall_impl; [exact Hy|].
      unfold Spec.descending; intros; simpl in *; lia.
    + constructor; [exact IH|].
      rewrite <- (insert_sorted_perm x l).
      constructor; [unfold Spec.descending; lia | exact Hy].
Qed.

Lemma sort_sorted (l : list A) :
  StronglySorted (Spec.descending key) (JS.sort cmp l).
Proof.
  induction l; simpl; [constructor | now apply insert_sorted_sorted].
Qed.

Lemma insert_sorted_of_key (k : Z) (x : A) (l : list A) :
  Spec.of_key key k (JS.insert_sorted cmp x l) = Spec.of_key key k (x :: l).
Proof.
  induction l as [|y l IH]; [reflexivity|].
  cbn [JS.insert_sorted].
  destruct (Z.leb_spec (cmp x y) 0) as [Hc|Hc]; [reflexivity|].
  unfold Spec.key_comparator in Hc. unfold Spec.of_key in *. simpl in *. rewrite IH.
  destruct (Z.eqb_spec (key x) k), (Z.eqb_spec (key y) k); try reflexivity.
  lia.
Qed.

Lemma sort_of_key (k : Z) (l : list A) :
  Spec.of_key key k (JS.sort cmp l) = Spec.of_key key k l.
Proof.
  induction l as [|x l IH]; [reflexivity|].
  simpl. rewrite insert_sorted_of_key. unfold Spec.of_key in *. simpl.
  now rewrite IH.
Qed.

Lemma sort_sorted_id (l : list A) :
  StronglySorted (Spec.descending key) l -> JS.sort cmp l = l.
Proof.
  induction 1 as [|x l Hl IH Hx]; [reflexivity|].
  simpl. rewrite IH. destruct Hx as [|y l' Hy _]; [reflexivity|].
  simpl. unfold Spec.descending in Hy.
  destruct (Z.leb_spec (cmp x y) 0) as [Hc|Hc]; [reflexivity|].
  unfold Spec.key_comparator in Hc. lia.
Qed.

End SortFacts.

(** ** [lastIndexOf] finds the last occurrence *)

Lemma ascii_eqb_true (a b : ascii) : JS.ascii_eqb a b = true <-> a = b.
Proof. apply Ascii.eqb_eq. Qed.

Lemma ascii_eqb_refl (a : ascii) : JS.ascii_eqb a a = true.
Proof. now apply ascii_eqb_true. Qed.

Lemma startsWith_take (pat s : jsstring) :
  JS.startsWith pat s = true <-> take (length pat) s = pat.
Proof.
  revert s; induction pat as [|p pat IH]; intros [|c s]; simpl; try easy.
  rewrite andb_true_iff, ascii_eqb_true, IH. split.
  - now intros [-> ->].
  - intros [= -> H]. now rewrite H.
Qed.

Lemma startsWith_occurs (s pat : jsstring) (k : nat) :
  k <= length s ->
  JS.startsWith pat (drop k s) = true <-> Spec.occurs_at s pat k.
Proof.
  intros Hk. rewrite startsWith_take. unfold Spec.occurs_at, JS.substring.
  replace (k + length pat - k) with (length pat) by lia.
  split; [|now intros [H _]].
  intros H; split; [exact H|].
  apply (f_equal length) in H. rewrite length_take, length_drop in H. lia.
Qed.

Lemma lastIndexOf_from_spec (s pat : jsstring) (k : nat) :
  k <= length s ->
  (JS.lastIndexOf_from s pat k = (-1)%Z /\
   forall j, j <= k -> ~ Spec.occurs_at s pat j) \/
  exists r, JS.lastIndexOf_from s pat k = Z.of_nat r /\ r <= k /\
    Spec.occurs_at s pat r /\
    forall j, r < j -> j <= k -> ~ Spec.occurs_at s pat j.
Proof.
  induction k as [|k IH]; simpl; intros Hk.
  - destruct (JS.startsWith pat (drop 0 s)) eqn:E.
    + right. exists 0. rewrite startsWith_occurs in E by lia.
      repeat split; [lia | apply E | apply E | intros; lia].
    + left. split; [reflexivity|]. intros j Hj Hocc.
      replace j with 0 in Hocc by lia.
      apply startsWith_occurs in Hocc; [congruence | lia].
  - destruct (JS.startsWith pat (drop (S k) s)) eqn:E.
    + right. exists (S k). rewrite startsWith_occurs in E by lia.
      repeat split; [lia | apply E | apply E | intros; lia].
    + assert (Hn : ~ Spec.occurs_at s pat (S k)).
      { intros Hocc. apply startsWith_occurs in Hocc; [congruence | lia]. }
      destruct IH as [[-> IH]|(r & -> & Hr & Hocc & IH)]; [lia | |].
      * left. split; [reflexivity|]. intros j Hj.
        destruct (decide (j = S k)) as [->|]; [exact Hn | apply IH; lia].
      * right. exists r. repeat split; [lia | apply Hocc | apply Hocc |].
        intros j Hj1 Hj2.
        destruct (decide (j = S k)) as [->|]; [exact Hn | apply IH; lia].
Qed.

Lemma lastIndexOf_spec (s pat : jsstring) :
  Spec.last_occurrence s pat (JS.lastIndexOf s pat).
Proof.
  unfold JS.lastIndexOf, Spec.last_occurrence.
  destruct (Nat.leb_spec (length pat) (length s)) as [Hlen|Hlen].
  - destruct (lastIndexOf_from_spec s pat (length s - length pat))
      as [[-> H]|(r & -> & Hr & Hocc & H)]; [lia | |].
    + left. split; [reflexivity|]. intros j Hocc.
      apply (H j); [|exact Hocc]. destruct Hocc as [_ Hocc]. lia.
    + right. rewrite Nat2Z.id. repeat split; [lia | apply Hocc | apply Hocc |].
      intros j Hj Hocc'. apply (H j); [lia | | exact Hocc'].
      destruct Hocc' as [_ Hocc']. lia.
  - left. split; [reflexivity|]. intros j [_ Hocc]. lia.
Qed.

(** ** The matcher and the replacement loop *)

Lemma match_atoms_bounds (i : bool) (p : list JS.atom) (s : jsstring)
  (e q : nat) :
  JS.match_atoms i p s e = Some q -> e <= q /\ (e <= length s -> q <= length s).
Proof.
  revert e; induction p as [|[|c|cs] p IH]; simpl; intros e H.
  - injection H as <-. lia.
  - destruct (JS.atWordBoundary s e); [|discriminate]. now apply IH.
  - destruct (s !! e) as [d|] eqn:E; [|discriminate].
    destruct (JS.same_char i c d); [|discriminate].
    apply lookup_lt_Some in E. apply IH in H. lia.
  - destruct (s !! e) as [d|] eqn:E; [|discriminate].
    destruct (existsb _ cs); [|discriminate].
    apply lookup_lt_Some in E. apply IH in H. lia.
Qed.

Lemma scan_fuel (r : JS.regex) (s : jsstring) (f1 f2 i : nat) :
  length s + 2 <= i + f1 -> length s + 2 <= i + f2 ->
  JS.scan f1 r s i = JS.scan f2 r s i.
Proof.
  revert f2 i; induction f1 as [|f1 IH]; intros [|f2] i H1 H2; simpl;
    try reflexivity.
  - destruct (Nat.ltb_spec (length s) i); [reflexivity | lia].
  - destruct (Nat.ltb_spec (length s) i); [reflexivity | lia].
  - destruct (Nat.ltb_spec (length s) i) as [|Hi]; [reflexivity|].
    destruct (JS.exec_at r s i) as [e|] eqn:E.
    + apply match_atoms_bounds in E. f_equal.
      destruct (Nat.eqb_spec e i); apply IH; lia.
    + apply IH; lia.
Qed.

(** The loop of [replace], one turn at a time. *)
Lemma matches_from_unfold (r : JS.regex) (s : jsstring) (i : nat) :
  JS.matches_from r s i =
  if length s <? i then []
  else match JS.exec_at r s i with
       | Some e =>
           (i, e) :: JS.matches_from r s (if e =? i then S i else e)
       | None => JS.matches_from r s (S i)
       end.
Proof.
  unfold JS.matches_from.
  destruct (Nat.ltb_spec (length s) i) as [Hi|Hi].
  - destruct (length s + 2 - i); simpl; [reflexivity|].
    destruct (Nat.ltb_spec (length s) i); [reflexivity | lia].
  - replace (length s + 2 - i) with (S (length s + 1 - i)) by lia. simpl.
    destruct (Nat.ltb_spec (length s) i); [lia|].
    destruct (JS.exec_at r s i) as [e|] eqn:E.
    + apply match_atoms_bounds in E. f_equal.
      destruct (Nat.eqb_spec e i); apply scan_fuel; lia.
    + apply scan_fuel; lia.
Qed.

(** More turns than [length s + 2] find the same matches. *)
Lemma matches_enough_fuel (r : JS.regex) (s : jsstring) (extra : nat) :
  JS.scan (length s + 2 + extra) r s 0 = JS.matches r s.
Proof. apply scan_fuel; lia. Qed.

Lemma matches_from_0 (r : JS.regex) (s : jsstring) :
  JS.matches r s = JS.matches_from r s 0.
Proof. unfold JS.matches, JS.matches_from. f_equal. lia. Qed.

(** Every reported match is a match, at or after [lastIndex]. *)
Lemma scan_sound (r : JS.regex) (s : jsstring) (fuel i p e : nat) :
  In (p, e) (JS.scan fuel r s i) ->
  JS.exec_at r s p = Some e /\ i <= p /\ p <= length s.
Proof.
  revert i; induction fuel as [|fuel IH]; simpl; intros i H; [easy|].
  destruct (Nat.ltb_spec (length s) i) as [Hi|Hi]; [easy|].
  destruct (JS.exec_at r s i) as [e'|] eqn:E.
  - destruct H as [[= <- <-]|H]; [easy|].
    apply match_atoms_bounds in E. apply IH in H.
    destruct (Nat.eqb_spec e' i); lia || (split; [apply H | lia]).
  - apply IH in H. split; [apply H | lia].
Qed.

Lemma substring_cons {A} (s : list A) (i p : nat) (d : A) :
  s !! i = Some d -> i < p ->
  JS.substring s i p = d :: JS.substring s (S i) p.
Proof.
  intros Hd Hp. unfold JS.substring. rewrite (drop_S _ _ _ Hd).
  replace (p - i) with (S (p - S i)) by lia. reflexivity.
Qed.

(** A character before the next match is copied. *)
Lemma splice_skip {A} (s : list A) (repl : nat -> nat -> list A) (i : nat)
  (d : A) (ms : list (nat * nat)) :
  s !! i = Some d -> (forall p e, In (p, e) ms -> S i <= p) ->
  JS.splice s repl i ms = d :: JS.splice s repl (S i) ms.
Proof.
  intros Hd Hms. destruct ms as [|[p e] ms]; cbn [JS.splice].
  - now apply drop_S.
  - assert (S i <= p) by (eapply Hms; now left).
    destruct (Nat.leb_spec i p); [|lia].
    destruct (Nat.leb_spec (S i) p); [|lia].
    now rewrite (substring_cons s i p d) by (assumption || lia).
Qed.

(** ** Escaping, and the pattern it gives *)

Ltac each_ascii c :=
  destruct c as [[] [] [] [] [] [] [] []]; vm_compute; try reflexivity.

Lemma class_is_syntax (d : ascii) :
  existsb (fun c => JS.same_char false c d) ".*+?^${}()|[]\"%js
  = JS.isSyntaxCharacter d.
Proof. each_ascii d. Qed.

Lemma escaped_from (t : jsstring) (n i : nat) :
  length t - i <= n -> i <= length t ->
  JS.splice t
    (fun p e =>
       JS.GetSubstitution (JS.substring t p e) (take p t) (drop e t) "\$&"%js)
    i (JS.matches_from Script.metacharacters t i)
  = flat_map Script.escape_unit (drop i t).
Proof.
  revert i; induction n as [|n IH]; intros i Hn Hi.
  - rewrite matches_from_unfold.
    destruct (Nat.ltb_spec (length t) i); [lia|].
    unfold JS.exec_at, Script.metacharacters.
    cbn [JS.match_atoms JS.atoms JS.ignoreCase].
    rewrite (lookup_ge_None_2 t i) by lia.
    rewrite matches_from_unfold.
    destruct (Nat.ltb_spec (length t) (S i)); [|lia].
    simpl. now rewrite drop_ge by lia.
  - destruct (t !! i) as [d|] eqn:E.
    2:{ apply lookup_ge_None in E. apply IH; lia. }
    pose proof (lookup_lt_Some _ _ _ E) as Hlt.
    rewrite matches_from_unfold.
    destruct (Nat.ltb_spec (length t) i); [lia|].
    unfold JS.exec_at, Script.metacharacters.
    cbn [JS.match_atoms JS.atoms JS.ignoreCase].
    rewrite E, class_is_syntax.
    rewrite (drop_S _ _ _ E). cbn [flat_map]. unfold Script.escape_unit at 1.
    destruct (JS.isSyntaxCharacter d).
    + destruct (Nat.eqb_spec (S i) i); [lia|].
      cbn [JS.splice]. rewrite Nat.leb_refl.
      rewrite IH by lia.
      unfold JS.substring. rewrite Nat.sub_diag. simpl.
      replace (S i - i) with 1 by lia.
      rewrite (drop_S _ _ _ E). reflexivity.
    + rewrite (splice_skip _ _ i d) by
        (try assumption; intros p e Hin; apply scan_sound in Hin; lia).
      now rewrite IH by lia.
Qed.

Lemma escaped_spec (t : jsstring) :
  Script.escaped t = flat_map Script.escape_unit t.
Proof.
  unfold Script.escaped, JS.replace. rewrite matches_from_0.
  now rewrite (escaped_from t (length t) 0) by lia.
Qed.

Lemma parse_escaped (t rest : jsstring) (p : list JS.atom) :
  JS.parse rest = Some p ->
  JS.parse (flat_map Script.escape_unit t ++ rest)
  = Some (List.map JS.Char t ++ p).
Proof.
  intros Hrest. induction t as [|c t IH]; [exact Hrest|].
  cbn [flat_map List.map]. rewrite <- !app_assoc, <- app_comm_cons.
  unfold Script.escape_unit at 1.
  destruct (JS.isSyntaxCharacter c) eqn:Hc.
  - cbn [app JS.parse]. rewrite ascii_eqb_refl.
    assert (Hb : JS.ascii_eqb c "b"%char = false).
    { revert Hc. each_ascii c. discriminate. }
    rewrite Hb, Hc, IH. reflexivity.
  - cbn [app JS.parse].
    assert (Hb : JS.ascii_eqb c "\"%char = false).
    { revert Hc. each_ascii c. discriminate. }
    rewrite Hb, Hc, IH. reflexivity.
Qed.

(** The pattern of an entity always compiles, to the literal search for
    its text. *)
Lemma new_RegExp_pattern (e : Script.entity) :
  JS.new_RegExp (Script.pattern_source e) true
  = Some (Script.literal (Script.text e)).
Proof.
  unfold JS.new_RegExp, Script.pattern_source, Script.literal.
  rewrite escaped_spec.
  change ("\b"%js ++ ?x) with ("\"%char :: "b"%char :: x).
  cbn [JS.parse]. rewrite ascii_eqb_refl.
  change (JS.ascii_eqb "b" "b") with true. cbn iota.
  now rewrite (parse_escaped _ _ [JS.WordBoundary]).
Qed.

(** * [highlightEntities] *)

Lemma foldl_highlight_one (h : jsstring) (es : list Script.entity) :
  foldl Script.highlight_one (Some h) es = Some (foldl Script.wrap h es).
Proof.
  revert h; induction es as [|e es IH]; intros h; [reflexivity|].
  cbn [foldl]. unfold Script.highlight_one at 2. cbn [mbind option_bind].
  rewrite new_RegExp_pattern. cbn [mbind option_bind]. apply IH.
Qed.

(** The call never throws: it sorts the array, then wraps the entities in
    the order of the sorted array. *)
Lemma highlightEntities_eq (input : jsstring) (es : list Script.entity) :
  Script.highlightEntities input es
  = Some (foldl Script.wrap input
            (JS.sort (Script.by_last_occurrence input) es),
          JS.sort (Script.by_last_occurrence input) es).
Proof.
  unfold Script.highlightEntities. now rewrite foldl_highlight_one.
Qed.

(** C6.  The entities are processed in descending order of the offset of
    the last occurrence of their text in the input, entities of equal
    offset in the order of the input list; the array is put in that order
    before the first replacement. *)
Theorem C6_processing_order (input : jsstring)
  (entities : list Script.entity) :
  let key := fun e => JS.lastIndexOf input (Script.text e) in
  exists order,
    Script.highlightEntities input entities
      = Some (foldl Script.wrap input order, order) /\
    Permutation entities order /\
    StronglySorted (Spec.descending key) order /\
    (forall k, Spec.of_key key k order = Spec.of_key key k entities) /\
    (forall e, Spec.last_occurrence input (Script.text e) (key e)).
Proof.
  intros key. exists (JS.sort (Script.by_last_occurrence input) entities).
  split; [apply highlightEntities_eq|].
  split; [apply (sort_perm key)|].
  split; [apply (sort_sorted key)|].
  split; [intros k; apply (sort_of_key key)|].
  intros e. apply lastIndexOf_spec.
Qed.

(** C10, as the specification states it, fails: the call reorders the
    caller's list. *)
Lemma C10_counterexample :
  let a := Script.Entity "a"%js "X"%js "first"%js in
  let b := Script.Entity "b"%js "Y"%js "second"%js in
  exists h after,
    Script.highlightEntities "a b"%js [a; b] = Some (h, after) /\
    after = [b; a] /\ after <> [a; b].
Proof.
  intros a b. eexists _, _. split; [vm_compute; reflexivity|].
  split; [reflexivity | discriminate].
Qed.

(** C10, amended.  The call sorts the caller's list: it leaves in it the
    same entities, in descending order of last occurrence, entities of
    equal offset in the order they had; the list is unchanged exactly
    when it already was in descending order of last occurrence. *)
Theorem C10_caller_list (input : jsstring) (entities : list Script.entity) :
  let key := fun e => JS.lastIndexOf input (Script.text e) in
  exists h after,
    Script.highlightEntities input entities = Some (h, after) /\
    Permutation entities after /\
    StronglySorted (Spec.descending key) after /\
    (forall k, Spec.of_key key k after = Spec.of_key key k entities) /\
    (after = entities <-> StronglySorted (Spec.descending key) entities).
Proof.
  intros key. eexists _, _. split; [apply highlightEntities_eq|].
  split; [apply (sort_perm key)|].
  split; [apply (sort_sorted key)|].
  split; [intros k; apply (sort_of_key key)|].
  split.
  - intros <-. apply (sort_sorted key).
  - apply (sort_sorted_id key).
Qed.

(** * [createEntityChart] *)

Lemma count_label_spec (es : list Script.entity) (m0 : gmap jsstring nat) :
  Forall (fun e => Script.label e ∉ Script.inherited_keys) es ->
  exists m, foldl Script.count_label (Some m0) es = Some m /\
    forall l, m !! l =
      match length (Script.labelled l es) with
      | O => m0 !! l
      | S n => Some (default 0 (m0 !! l) + S n)
      end.
Proof.
  intros Hes; revert m0; induction Hes as [|e es He Hes IH]; intros m0.
  - exists m0. now split.
  - cbn [foldl]. unfold Script.count_label at 2. cbn [mbind option_bind].
    rewrite bool_decide_eq_false_2 by exact He.
    destruct (IH (<[Script.label e := default 0 (m0 !! Script.label e) + 1]> m0))
      as (m & -> & Hm).
    exists m. split; [reflexivity|]. intros l. rewrite Hm.
    unfold Script.labelled. cbn [List.filter].
    destruct (decide (Script.label e = l)) as [<-|Hne].
    + rewrite bool_decide_eq_true_2 by reflexivity.
      rewrite lookup_insert_eq. cbn [length default]. unfold id.
      destruct (length _); f_equal; lia.
    + rewrite bool_decide_eq_false_2 by exact Hne.
      now rewrite lookup_insert_ne by exact Hne.
Qed.

(** C5, as the specification states it, fails on its own example: both
    occurrences of the text are annotated, and the count of the category
    is 1, the number of entities of that label. *)
Lemma C5_counterexample :
  let apple := Script.Entity "Apple"%js "ORG"%js "A tech company"%js in
  let input := "Apple released new Apple Watch."%js in
  JS.matches (Script.literal "Apple"%js) input = [(0, 5); (19, 24)] /\
  exists counts,
    Script.createEntityChart [apple] = Some counts /\
    counts !! "ORG"%js = Some 1 /\ counts !! "ORG"%js <> Some 2.
Proof.
  intros apple input. split; [vm_compute; reflexivity|].
  eexists. split; [reflexivity|]. split; [vm_compute; reflexivity|].
  vm_compute. discriminate.
Qed.

(** C5, amended.  The chart maps every label to the number of entities of
    the list that carry it, whether or not their text was found; the text
    plays no part. *)
Theorem C5_counts_entities (entities : list Script.entity) :
  Forall (fun e => Script.label e ∉ Script.inherited_keys) entities ->
  exists counts,
    Script.createEntityChart entities = Some counts /\
    forall l, counts !! l =
      match length (Script.labelled l entities) with
      | O => None
      | S n => Some (S n)
      end.
Proof.
  intros H. destruct (count_label_spec entities ∅ H) as (m & Hm & Hl).
  exists m. split; [exact Hm|]. intros l. rewrite Hl, lookup_empty.
  reflexivity.
Qed.

(** C5 on the example of the specification. *)
Lemma C5_counts_entities_witness :
  let apple := Script.Entity "Apple"%js "ORG"%js "A tech company"%js in
  exists counts,
    Script.createEntityChart [apple] = Some counts /\
    counts !! "ORG"%js = Some 1 /\ counts !! "PERSON"%js = None.
Proof.
  intros apple.
  destruct (C5_counts_entities [apple]) as (counts & Hc & Hl).
  - repeat constructor. vm_compute. intros H.
    repeat (apply elem_of_cons in H as [H|H]; [discriminate|]).
    now apply elem_of_nil in H.
  - exists counts. split; [exact Hc|]. now rewrite !Hl.
Defined.

(** * Matching the text of an entity *)

Lemma same_char_canon (a b : ascii) :
  JS.same_char true a b = true <-> JS.Canonicalize a = JS.Canonicalize b.
Proof. apply ascii_eqb_true. Qed.

Lemma isWordChar_canon (c : ascii) :
  JS.isWordChar (JS.Canonicalize c) = JS.isWordChar c.
Proof. each_ascii c. Qed.

Lemma isWordChar_same (a b : ascii) :
  JS.Canonicalize a = JS.Canonicalize b -> JS.isWordChar a = JS.isWordChar b.
Proof.
  intros H. rewrite <- (isWordChar_canon a), <- (isWordChar_canon b).
  now rewrite H.
Qed.

Lemma match_chars (t : jsstring) (rest : list JS.atom) (s : jsstring)
  (e q : nat) :
  JS.match_atoms true (List.map JS.Char t ++ rest) s e = Some q <->
  Spec.same_letters (take (length t) (drop e s)) t /\
  JS.match_atoms true rest s (e + length t) = Some q.
Proof.
  unfold Spec.same_letters.
  revert e; induction t as [|c t IH]; intros e.
  - cbn [List.map app length]. rewrite Nat.add_0_r, take_0.
    split; [now split | now intros [_ ?]].
  - cbn [List.map app length JS.match_atoms].
    destruct (s !! e) as [d|] eqn:E.
    + rewrite (drop_S _ _ _ E). cbn [take List.map].
      replace (e + S (length t)) with (S e + length t) by lia.
      destruct (JS.same_char true c d) eqn:Hcd.
      * apply same_char_canon in Hcd. rewrite IH, Hcd. split.
        -- intros [H1 H2]. split; [now rewrite H1 | exact H2].
        -- intros [[= H1] H2]. now split.
      * split; [discriminate|]. intros [[= Hd _] _].
        symmetry in Hd. apply same_char_canon in Hd. congruence.
    + apply lookup_ge_None in E. rewrite drop_ge by lia.
      split; [discriminate|]. now intros [H _].
Qed.

(** A match of the literal search: the text, up to letter case, between
    two word boundaries. *)
Lemma exec_literal (t s : jsstring) (p q : nat) :
  JS.exec_at (Script.literal t) s p = Some q <->
  q = p + length t /\
  Spec.same_letters (JS.substring s p q) t /\
  JS.atWordBoundary s p = true /\ JS.atWordBoundary s q = true.
Proof.
  unfold JS.exec_at, Script.literal, JS.substring.
  cbn [JS.atoms JS.ignoreCase JS.match_atoms].
  destruct (JS.atWordBoundary s p) eqn:Hp.
  2:{ split; [discriminate | now intros (_ & _ & ? & _)]. }
  rewrite match_chars. cbn [JS.match_atoms].
  destruct (JS.atWordBoundary s (p + length t)) eqn:Hq.
  - split.
    + intros [H [= <-]]. replace (p + length t - p) with (length t) by lia.
      now rewrite Hq.
    + intros (-> & H & _ & _).
      replace (p + length t - p) with (length t) in H by lia. now split.
  - split; [now intros [_ ?]|]. intros (-> & _ & _ & H). congruence.
Qed.

Lemma same_letters_lookup (s t : jsstring) (p k : nat) (c : ascii) :
  Spec.same_letters (take (length t) (drop p s)) t ->
  t !! k = Some c ->
  exists d, s !! (p + k) = Some d /\ JS.Canonicalize d = JS.Canonicalize c.
Proof.
  unfold Spec.same_letters. intros H Hc.
  pose proof (lookup_lt_Some _ _ _ Hc) as Hk.
  apply (f_equal (fun l => l !! k)) in H.
  change (List.map ?f ?l) with (f <$> l) in H.
  rewrite !list_lookup_fmap, Hc, lookup_take_lt, lookup_drop in H by exact Hk.
  destruct (s !! (p + k)) as [d|]; [|discriminate].
  injection H as H. now exists d.
Qed.

Lemma isWordCharAt_lookup (s : jsstring) (k : nat) (d : ascii) :
  s !! k = Some d -> JS.isWordCharAt s (Z.of_nat k) = JS.isWordChar d.
Proof.
  intros H. unfold JS.isWordCharAt.
  destruct (Z.ltb_spec (Z.of_nat k) 0); [lia|].
  now rewrite Nat2Z.id, H.
Qed.

(** Around a text that begins and ends with a word character, the two
    word boundaries say that the match is bounded by non-word characters
    or string edges. *)
Lemma word_edged_bounded (t s : jsstring) (p : nat) :
  Script.word_edged t = true ->
  Spec.same_letters (take (length t) (drop p s)) t ->
  JS.atWordBoundary s p = true /\ JS.atWordBoundary s (p + length t) = true
  <-> Spec.bounded s p (p + length t).
Proof.
  unfold Script.word_edged. intros Hedge Hsame.
  destruct (head t) as [a|] eqn:Ha; [|discriminate].
  destruct (last t) as [b|] eqn:Hb; [|discriminate].
  apply andb_true_iff in Hedge as [Hwa Hwb].
  rewrite head_lookup in Ha. rewrite last_lookup in Hb.
  pose proof (lookup_lt_Some _ _ _ Ha) as Hlen.
  destruct (same_letters_lookup s t p 0 a Hsame Ha) as (d & Hd & Hda).
  destruct (same_letters_lookup s t p _ b Hsame Hb) as (d' & Hd' & Hdb).
  apply isWordChar_same in Hda, Hdb.
  apply isWordCharAt_lookup in Hd, Hd'.
  rewrite Nat.add_0_r in Hd.
  unfold JS.atWordBoundary, Spec.bounded.
  replace (Z.of_nat (p + length t) - 1)%Z
    with (Z.of_nat (p + Nat.pred (length t))) by lia.
  rewrite Hd, Hd', Hda, Hdb, Hwa, Hwb.
  destruct (JS.isWordCharAt s (Z.of_nat p - 1)),
    (JS.isWordCharAt s (Z.of_nat (p + length t))); simpl;
    split; intros [? ?]; split; congruence.
Qed.

(** C7, as the specification states it, fails for a text that begins with
    a character that is not a word character: [\b] then asks for a word
    character before the match. *)
Lemma C7_counterexample :
  let input := "US$100"%js in
  JS.matches (Script.literal "$100"%js) input = [(2, 6)] /\
  JS.exec_at (Script.literal "$100"%js) input 2 = Some 6 /\
  ~ Spec.bounded input 2 6.
Proof.
  intros input. split; [vm_compute; reflexivity|].
  split; [vm_compute; reflexivity|].
  intros [H _]. vm_compute in H. discriminate.
Qed.

(** C7, amended.  For every entity, every metacharacter of the text is
    escaped, so that the pattern searches for the text itself, and a turn
    of the program replaces the matches of that search, made without
    regard to letter case: a match is the text, up to letter case,
    between two word boundaries.  For a text that begins and ends with a
    word character, the boundaries say that the match is bounded by
    non-word characters or string edges.  In "cat category catalog" the
    text "cat" has one match, the first word, and in "Cat category" it
    matches the capitalized word (an entity without description has the
    title "undefined"). *)
Theorem C7_whole_word_matching (e : Script.entity) (input : jsstring)
  (p q : nat) :
  Script.escaped (Script.text e)
    = flat_map Script.escape_unit (Script.text e) /\
  JS.new_RegExp (Script.pattern_source e) true
    = Some (Script.literal (Script.text e)) /\
  Script.highlight_one (Some input) e
    = Some (JS.replace (Script.literal (Script.text e))
              (Script.replacement e) input) /\
  Script.highlightEntities input [e]
    = Some (JS.replace (Script.literal (Script.text e))
              (Script.replacement e) input, [e]) /\
  (In (p, q) (JS.matches (Script.literal (Script.text e)) input) ->
   JS.exec_at (Script.literal (Script.text e)) input p = Some q) /\
  (JS.exec_at (Script.literal (Script.text e)) input p = Some q <->
     q = p + length (Script.text e) /\
     Spec.same_letters (JS.substring input p q) (Script.text e) /\
     JS.atWordBoundary input p = true /\
     JS.atWordBoundary input q = true) /\
  (Script.word_edged (Script.text e) = true ->
   (JS.exec_at (Script.literal (Script.text e)) input p = Some q <->
      q = p + length (Script.text e) /\
      Spec.same_letters (JS.substring input p q) (Script.text e) /\
      Spec.bounded input p q)) /\
  let cat := Script.Entity "cat"%js "X"%js "undefined"%js in
  JS.matches (Script.literal "cat"%js) "cat category catalog"%js = [(0, 3)] /\
  Script.highlightEntities "cat category catalog"%js [cat]
    = Some (Script.open_tag cat ++ "cat"%js ++ Script.close_tag
              ++ " category catalog"%js, [cat]) /\
  Script.highlightEntities "Cat category"%js [cat]
    = Some (Script.open_tag cat ++ "cat"%js ++ Script.close_tag
              ++ " category"%js, [cat]).
Proof.
  split; [apply escaped_spec|].
  split; [apply new_RegExp_pattern|].
  split.
  { unfold Script.highlight_one. cbn [mbind option_bind].
    now rewrite new_RegExp_pattern. }
  split; [apply highlightEntities_eq|].
  split; [intros Hin; now apply scan_sound in Hin|].
  split; [apply exec_literal|].
  split.
  - intros Hedge. rewrite exec_literal. split.
    + intros (-> & Hsame & Hp & Hq). split; [reflexivity|].
      split; [exact Hsame|].
      unfold JS.substring in Hsame.
      replace (p + length (Script.text e) - p)
        with (length (Script.text e)) in Hsame by lia.
      now apply word_edged_bounded.
    + intros (-> & Hsame & Hb). split; [reflexivity|].
      split; [exact Hsame|].
      unfold JS.substring in Hsame.
      replace (p + length (Script.text e) - p)
        with (length (Script.text e)) in Hsame by lia.
      now apply word_edged_bounded.
  - repeat split; vm_compute; reflexivity.
Qed.

(** C7 on the example of the specification: the first word matches, the
    beginning of "category" does not. *)
Lemma C7_whole_word_matching_witness :
  let cat := Script.Entity "cat"%js "X"%js "undefined"%js in
  let input := "cat category catalog"%js in
  Script.word_edged (Script.text cat) = true /\
  JS.exec_at (Script.literal "cat"%js) input 0 = Some 3 /\
  Spec.bounded input 0 3 /\
  JS.exec_at (Script.literal "cat"%js) input 4 = None.
Proof.
  intros cat input. split; [reflexivity|].
  destruct (C7_whole_word_matching cat input 0 3)
    as (_ & _ & _ & _ & _ & _ & H & _).
  destruct (H eq_refl) as [H' _].
  split; [vm_compute; reflexivity|].
  split; [|vm_compute; reflexivity].
  apply H'. vm_compute. reflexivity.
Defined.

(** * The provenance of the characters of the result *)

Section Substitution.
Context (m b a : jsstring).

Local Abbreviation G := (JS.GetSubstitution m b a).

Lemma GetSubstitution_plain (c : ascii) (rest : jsstring) :
  JS.ascii_eqb c "$"%char = false -> G (c :: rest) = c :: G rest.
Proof. intros H. cbn [JS.GetSubstitution]. now rewrite H. Qed.

Lemma GetSubstitution_dollar (c d : ascii) (rest : jsstring) :
  JS.ascii_eqb c "$"%char = true ->
  G (c :: d :: rest) =
    if JS.ascii_eqb d "$"%char then "$"%char :: G rest
    else if JS.ascii_eqb d "&"%char then m ++ G rest
    else if JS.ascii_eqb d "`"%char then b ++ G rest
    else if JS.ascii_eqb d "'"%char then a ++ G rest
    else c :: G (d :: rest).
Proof. intros H. cbn [JS.GetSubstitution]. now rewrite H. Qed.

(** A text without token is copied. *)
Lemma GetSubstitution_token_free (t : jsstring) :
  Script.token_free t = true -> G t = t.
Proof.
  induction t as [|c [|d rest] IH].
  - reflexivity.
  - intros _. cbn [JS.GetSubstitution].
    now destruct (JS.ascii_eqb c "$"%char).
  - cbn [Script.token_free]. intros [Hcd Hrest]%andb_true_iff.
    specialize (IH Hrest).
    destruct (JS.ascii_eqb c "$"%char) eqn:Hc.
    + rewrite GetSubstitution_dollar by exact Hc.
      cbn [existsb andb negb] in Hcd.
      destruct (JS.ascii_eqb d "$"%char); [discriminate|].
      destruct (JS.ascii_eqb d "&"%char); [discriminate|].
      destruct (JS.ascii_eqb d "`"%char); [discriminate|].
      destruct (JS.ascii_eqb d "'"%char); [discriminate|].
      now rewrite IH.
    + rewrite GetSubstitution_plain by exact Hc. now rewrite IH.
Qed.

(** The expansion of a template splits before a character that no token
    ends with. *)
Lemma GetSubstitution_before (y : ascii) (n : nat) (l l2 : jsstring) :
  existsb (JS.ascii_eqb y) "$&`'"%js = false -> length l <= n ->
  G (l ++ y :: l2) = G l ++ G (y :: l2).
Proof.
  intros Hy. cbn [existsb] in Hy.
  apply orb_false_iff in Hy as [Hy1 Hy].
  apply orb_false_iff in Hy as [Hy2 Hy].
  apply orb_false_iff in Hy as [Hy3 Hy].
  apply orb_false_iff in Hy as [Hy4 _].
  revert l; induction n as [|n IH]; intros [|c l] Hl; try reflexivity;
    cbn [length] in Hl; [lia|].
  cbn [app]. destruct (JS.ascii_eqb c "$"%char) eqn:Hc.
  - destruct l as [|d l].
    + cbn [app]. rewrite GetSubstitution_dollar by exact Hc.
      rewrite Hy1, Hy2, Hy3, Hy4.
      cbn [JS.GetSubstitution]. now rewrite Hc.
    + cbn [app]. rewrite !GetSubstitution_dollar by exact Hc.
      cbn [length] in Hl.
      destruct (JS.ascii_eqb d "$"%char);
        [rewrite IH by lia; reflexivity|].
      destruct (JS.ascii_eqb d "&"%char);
        [rewrite IH by lia; now rewrite app_assoc|].
      destruct (JS.ascii_eqb d "`"%char);
        [rewrite IH by lia; now rewrite app_assoc|].
      destruct (JS.ascii_eqb d "'"%char);
        [rewrite IH by lia; now rewrite app_assoc|].
      pose proof (IH (d :: l) ltac:(cbn [length]; lia)) as IH'.
      cbn [app] in IH'. now rewrite IH'.
  - rewrite !GetSubstitution_plain by exact Hc.
    rewrite IH by lia. reflexivity.
Qed.

(** It also splits after a character that is not a dollar. *)
Lemma GetSubstitution_after (x : ascii) (n : nat) (l l2 : jsstring) :
  JS.ascii_eqb x "$"%char = false -> length l <= n ->
  G ((l ++ [x]) ++ l2) = G (l ++ [x]) ++ G l2.
Proof.
  intros Hx. revert l; induction n as [|n IH]; intros [|c l] Hl;
    cbn [length] in Hl; try lia.
  - cbn [app]. now rewrite !GetSubstitution_plain by exact Hx.
  - cbn [app]. now rewrite !GetSubstitution_plain by exact Hx.
  - cbn [app]. destruct (JS.ascii_eqb c "$"%char) eqn:Hc.
    + destruct l as [|d l].
      * cbn [app]. rewrite !GetSubstitution_dollar by exact Hc.
        rewrite Hx.
        destruct (JS.ascii_eqb x "&"%char);
          [cbn [JS.GetSubstitution]; now rewrite <- app_assoc|].
        destruct (JS.ascii_eqb x "`"%char);
          [cbn [JS.GetSubstitution]; now rewrite <- app_assoc|].
        destruct (JS.ascii_eqb x "'"%char);
          [cbn [JS.GetSubstitution]; now rewrite <- app_assoc|].
        rewrite !GetSubstitution_plain by exact Hx. reflexivity.
      * cbn [app]. rewrite !GetSubstitution_dollar by exact Hc.
        cbn [length] in Hl.
        destruct (JS.ascii_eqb d "$"%char);
          [rewrite IH by lia; reflexivity|].
        destruct (JS.ascii_eqb d "&"%char);
          [rewrite IH by lia; now rewrite app_assoc|].
        destruct (JS.ascii_eqb d "`"%char);
          [rewrite IH by lia; now rewrite app_assoc|].
        destruct (JS.ascii_eqb d "'"%char);
          [rewrite IH by lia; now rewrite app_assoc|].
        pose proof (IH (d :: l) ltac:(cbn [length]; lia)) as IH'.
        cbn [app] in IH'. now rewrite IH'.
    + rewrite !GetSubstitution_plain by exact Hc.
      rewrite IH by lia. reflexivity.
Qed.

(** The replacement of an entity expands part by part. *)
Lemma GetSubstitution_replacement (e : Script.entity) :
  G (Script.replacement e)
  = G (Script.open_tag e) ++ G (Script.text e) ++ G Script.close_tag.
Proof.
  unfold Script.replacement, Script.open_tag.
  change (?l ++ ">"%js) with (l ++ [">"%char]).
  erewrite GetSubstitution_after by (reflexivity || apply Nat.le_refl).
  f_equal.
  change Script.close_tag with ("<"%char :: "/span>"%js).
  erewrite GetSubstitution_before by (reflexivity || apply Nat.le_refl).
  reflexivity.
Qed.

End Substitution.

Lemma erase_mark (r : Script.role) (s : jsstring) :
  Script.erase (Script.mark r s) = s.
Proof.
  unfold Script.erase, Script.mark. rewrite List.map_map. apply List.map_id.
Qed.

Lemma erase_app (u v : Script.traced) :
  Script.erase (u ++ v) = Script.erase u ++ Script.erase v.
Proof. apply List.map_app. Qed.

Lemma erase_substring (w : Script.traced) (p q : nat) :
  Script.erase (JS.substring w p q) = JS.substring (Script.erase w) p q.
Proof.
  unfold Script.erase, JS.substring.
  now rewrite <- List.firstn_map, <- List.skipn_map.
Qed.

Lemma splice_ext {A} (s : list A) (r1 r2 : nat -> nat -> list A) (i : nat)
  (ms : list (nat * nat)) :
  (forall p q, r1 p q = r2 p q) -> JS.splice s r1 i ms = JS.splice s r2 i ms.
Proof.
  intros H. revert i; induction ms as [|[p q] ms IH]; intros i;
    cbn [JS.splice]; [reflexivity|].
  now rewrite H, !IH.
Qed.

Lemma splice_erase (w : Script.traced)
  (repl : nat -> nat -> Script.traced) (i : nat) (ms : list (nat * nat)) :
  Script.erase (JS.splice w repl i ms)
  = JS.splice (Script.erase w) (fun p q => Script.erase (repl p q)) i ms.
Proof.
  revert i; induction ms as [|[p q] ms IH]; intros i; cbn [JS.splice].
  - unfold Script.erase. now rewrite <- List.skipn_map.
  - destruct (i <=? p); [|apply IH].
    now rewrite !erase_app, erase_substring, IH.
Qed.

Lemma erase_traced_replacement (e : Script.entity) (s : jsstring)
  (p q : nat) :
  Script.erase (Script.traced_replacement e s p q)
  = JS.GetSubstitution (JS.substring s p q) (take p s) (drop q s)
      (Script.replacement e).
Proof.
  unfold Script.traced_replacement.
  now rewrite !erase_app, !erase_mark, GetSubstitution_replacement.
Qed.

(** One turn on the traced text is the turn of the program on the text. *)
Lemma trace_one_eq (w : Script.traced) (e : Script.entity) :
  exists w',
    Script.trace_one (Some w) e = Some w' /\
    w' = JS.splice w (Script.traced_replacement e (Script.erase w)) 0
           (JS.matches (Script.literal (Script.text e)) (Script.erase w)) /\
    Script.erase w' = Script.wrap (Script.erase w) e.
Proof.
  eexists. unfold Script.trace_one. cbn [mbind option_bind].
  rewrite new_RegExp_pattern. cbn [mbind option_bind].
  split; [reflexivity|]. split; [reflexivity|].
  unfold Script.wrap, JS.replace. rewrite splice_erase.
  apply splice_ext. intros p q. apply erase_traced_replacement.
Qed.

Lemma foldl_trace_one (w : Script.traced) (es : list Script.entity) :
  exists w',
    foldl Script.trace_one (Some w) es = Some w' /\
    Script.erase w' = foldl Script.wrap (Script.erase w) es.
Proof.
  revert w; induction es as [|e es IH]; intros w.
  - now exists w.
  - cbn [foldl]. destruct (trace_one_eq w e) as (w1 & -> & _ & H1).
    destruct (IH w1) as (w' & -> & H'). exists w'.
    split; [reflexivity|]. now rewrite H', H1.
Qed.

(** The traced run is the run of the program. *)
Lemma trace_erase (input : jsstring) (es : list Script.entity) :
  exists w,
    Script.trace input es = Some w /\
    fst <$> Script.highlightEntities input es = Some (Script.erase w).
Proof.
  unfold Script.trace.
  destruct (foldl_trace_one (Script.mark Script.Plain input)
              (JS.sort (Script.by_last_occurrence input) es))
    as (w & Hw & He).
  exists w. split; [exact Hw|].
  rewrite highlightEntities_eq. cbn [fmap option_fmap option_map fst].
  now rewrite He, erase_mark.
Qed.

(** ** The texts of the segments *)

Lemma segment_text_app (u v : Script.traced) :
  Script.segment_text (u ++ v)
  = Script.segment_text u ++ Script.segment_text v.
Proof.
  unfold Script.segment_text. now rewrite List.filter_app, erase_app.
Qed.

Lemma segment_text_no_markup (m : Script.traced) :
  forallb (fun x => negb (Script.is_markup x)) m = true ->
  Script.segment_text m = Script.erase m.
Proof.
  unfold Script.segment_text. induction m as [|x m IH]; [reflexivity|].
  cbn [forallb List.filter]. intros [Hx Hm]%andb_true_iff.
  rewrite Hx. cbn [Script.erase List.map]. f_equal. now apply IH.
Qed.

Lemma segment_text_markup (s : jsstring) :
  Script.segment_text (Script.mark Script.Markup s) = [].
Proof. induction s as [|c s IH]; [reflexivity | exact IH]. Qed.

Lemma segment_text_shown (s : jsstring) :
  Script.segment_text (Script.mark Script.Shown s) = s.
Proof.
  induction s as [|c s IH]; [reflexivity|].
  unfold Script.segment_text in *. cbn. now f_equal.
Qed.

Lemma segment_text_plain (s : jsstring) :
  Script.segment_text (Script.mark Script.Plain s) = s.
Proof.
  induction s as [|c s IH]; [reflexivity|].
  unfold Script.segment_text in *. cbn. now f_equal.
Qed.

Lemma substring_drop {A} (w : list A) (i p : nat) :
  i <= p -> JS.substring w i p ++ drop p w = drop i w.
Proof.
  intros H. unfold JS.substring.
  rewrite <- (take_drop (p - i) (drop i w)) at 2.
  rewrite drop_drop. do 2 f_equal. lia.
Qed.

(** The segment text of a replaced match is the text of the entity when
    the text holds no token. *)
Lemma segment_text_replacement (e : Script.entity) (s : jsstring)
  (p q : nat) :
  Script.token_free (Script.text e) = true ->
  Script.segment_text (Script.traced_replacement e s p q) = Script.text e.
Proof.
  intros H. unfold Script.traced_replacement.
  rewrite !segment_text_app, !segment_text_markup, segment_text_shown.
  rewrite app_nil_r. cbn [app]. now apply GetSubstitution_token_free.
Qed.

(** Replacing matches that hold no markup by something that reads like
    them, under [f], leaves the segment text as it was, under [f]. *)
Lemma splice_segment_text (f : ascii -> ascii) (w : Script.traced)
  (repl : nat -> nat -> Script.traced) (t : jsstring)
  (ms : list (nat * nat)) (i : nat) :
  (forall p q, In (p, q) ms ->
     p <= q /\
     forallb (fun x => negb (Script.is_markup x)) (JS.substring w p q) = true /\
     List.map f (Script.erase (JS.substring w p q)) = List.map f t /\
     Script.segment_text (repl p q) = t) ->
  List.map f (Script.segment_text (JS.splice w repl i ms))
  = List.map f (Script.segment_text (drop i w)).
Proof.
  revert i; induction ms as [|[p q] ms IH]; intros i Hms;
    cbn [JS.splice]; [reflexivity|].
  assert (Hrest : forall p' q', In (p', q') ms ->
     p' <= q' /\
     forallb (fun x => negb (Script.is_markup x)) (JS.substring w p' q') = true /\
     List.map f (Script.erase (JS.substring w p' q')) = List.map f t /\
     Script.segment_text (repl p' q') = t).
  { intros p' q' Hin. apply Hms. now right. }
  destruct (Nat.leb_spec i p) as [Hi|Hi]; [|now apply IH].
  destruct (Hms p q (or_introl eq_refl)) as (Hpq & Hno & Hf & Hrepl).
  rewrite <- (substring_drop w i p Hi), <- (substring_drop w p q Hpq).
  rewrite !segment_text_app, !List.map_app, Hrepl, (IH q Hrest).
  now rewrite (segment_text_no_markup _ Hno), Hf.
Qed.

Lemma turn_matches_eq (e : Script.entity) (w : Script.traced) :
  Script.turn_matches e w
  = JS.matches (Script.literal (Script.text e)) (Script.erase w).
Proof. unfold Script.turn_matches. now rewrite new_RegExp_pattern. Qed.

Lemma turn_ok_In (ok : Script.entity -> Script.traced -> bool)
  (e : Script.entity) (w : Script.traced) (p q : nat) :
  Script.turn_ok ok e w = true ->
  In (p, q) (JS.matches (Script.literal (Script.text e)) (Script.erase w)) ->
  ok e (JS.substring w p q) = true.
Proof.
  unfold Script.turn_ok. rewrite turn_matches_eq, forallb_forall.
  intros H Hin. exact (H (p, q) Hin).
Qed.

Section SegmentText.
Context (f : ascii -> ascii) (ok : Script.entity -> Script.traced -> bool).
Hypothesis ok_reads : forall e m,
  ok e m = true -> Spec.same_letters (Script.erase m) (Script.text e) ->
  List.map f (Script.erase m) = List.map f (Script.text e).

Lemma turn_segment_text (e : Script.entity) (w w' : Script.traced) :
  Script.token_free (Script.text e) = true ->
  Script.turn_ok Script.no_markup e w = true ->
  Script.turn_ok ok e w = true ->
  Script.trace_one (Some w) e = Some w' ->
  List.map f (Script.segment_text w') = List.map f (Script.segment_text w).
Proof using ok_reads.
  intros Htok Hno Hok Hw'.
  destruct (trace_one_eq w e) as (w1 & Hw1 & -> & _).
  rewrite Hw1 in Hw'. injection Hw' as <-.
  rewrite (splice_segment_text f w _ (Script.text e)); [reflexivity|].
  intros p q Hin.
  pose proof (turn_ok_In _ _ _ _ _ Hno Hin) as Hno1.
  pose proof (turn_ok_In _ _ _ _ _ Hok Hin) as Hok1.
  apply scan_sound in Hin as [Hex _].
  apply exec_literal in Hex as (-> & Hsame & _).
  split; [lia|]. split; [exact Hno1|].
  split; [|now apply segment_text_replacement].
  apply ok_reads; [exact Hok1|]. now rewrite erase_substring.
Qed.

Lemma turns_segment_text (es : list Script.entity) (w : Script.traced) :
  Forall (fun e => Script.token_free (Script.text e) = true) es ->
  Script.turns_ok Script.no_markup es w = true ->
  Script.turns_ok ok es w = true ->
  forall w', foldl Script.trace_one (Some w) es = Some w' ->
  List.map f (Script.segment_text w') = List.map f (Script.segment_text w).
Proof using ok_reads.
  intros Hes; revert w; induction Hes as [|e es He Hes IH];
    intros w Hno Hok w' Hw'.
  - injection Hw' as <-. reflexivity.
  - cbn [Script.turns_ok foldl] in *.
    apply andb_true_iff in Hno as [Hno1 Hno], Hok as [Hok1 Hok].
    destruct (Script.trace_one (Some w) e) as [w1|] eqn:E.
    + rewrite (IH w1 Hno Hok w' Hw').
      now apply (turn_segment_text e w w1).
    + destruct (trace_one_eq w e) as (w1 & Hw1 & _). congruence.
Qed.

End SegmentText.

Lemma forallb_substring {A} (P : A -> bool) (l : list A) (p q : nat) :
  forallb P l = true -> forallb P (JS.substring l p q) = true.
Proof.
  rewrite !forallb_forall. intros H x Hx. apply H.
  unfold JS.substring in Hx.
  apply list_elem_of_In in Hx. apply list_elem_of_In.
  eapply (subseteq_drop p l), (subseteq_take (q - p)), Hx.
Qed.

(** A single entity meets no markup: the condition on the run only bears
    on the later turns. *)
Lemma avoids_markup_one (input : jsstring) (e : Script.entity) :
  Script.avoids_markup input [e] = true.
Proof.
  unfold Script.avoids_markup, Script.run_ok.
  cbn [JS.sort JS.insert_sorted Script.turns_ok].
  destruct (trace_one_eq (Script.mark Script.Plain input) e) as (w & -> & _).
  rewrite andb_true_r. unfold Script.turn_ok, Script.no_markup.
  apply forallb_forall. intros [p q] _.
  apply forallb_substring. clear.
  induction input as [|c input IH]; [reflexivity | exact IH].
Qed.

(** C1, as the specification states it, fails: a match is replaced by the
    text of the entity, in the entity's spelling. *)
Lemma C1_counterexample :
  let apple := Script.Entity "Apple"%js "ORG"%js "A tech company"%js in
  let input := "apple pie"%js in
  fst <$> Script.highlightEntities input [apple]
    = Some (Script.open_tag apple ++ "Apple"%js ++ Script.close_tag
              ++ " pie"%js) /\
  exists w,
    Script.trace input [apple] = Some w /\
    Script.segment_text w = "Apple pie"%js /\
    Script.segment_text w <> input.
Proof.
  intros apple input. split; [vm_compute; reflexivity|].
  eexists. split; [vm_compute; reflexivity|].
  split; [vm_compute; reflexivity|]. vm_compute. discriminate.
Qed.

(** C1, amended.  When no entity text holds a token of the replacement
    string and no match takes in a character of an inserted tag, the
    texts of the segments of the result, concatenated in order, give the
    input up to letter case: every match reads in the spelling of its
    entity.  They give the input itself whenever every match already had
    that spelling (which is enough, and not needed). *)
Theorem C1_reconstruction (input : jsstring)
  (entities : list Script.entity) :
  Forall (fun e => Script.token_free (Script.text e) = true) entities ->
  Script.avoids_markup input entities = true ->
  exists w,
    Script.trace input entities = Some w /\
    fst <$> Script.highlightEntities input entities
      = Some (Script.erase w) /\
    Spec.same_letters (Script.segment_text w) input /\
    (Script.same_spelling input entities = true ->
     Script.segment_text w = input).
Proof.
  intros Htok Hno.
  destruct (trace_erase input entities) as (w & Hw & He).
  exists w. split; [exact Hw|]. split; [exact He|].
  assert (Htok' : Forall (fun e => Script.token_free (Script.text e) = true)
            (JS.sort (Script.by_last_occurrence input) entities)).
  { eapply Permutation_Forall; [|exact Htok].
    apply (sort_perm (fun e => JS.lastIndexOf input (Script.text e))). }
  split.
  - pose proof (turns_segment_text JS.Canonicalize Script.no_markup
                  (fun e m _ H => H) _ _ Htok' Hno Hno w Hw) as H.
    now rewrite segment_text_plain in H.
  - intros Hsame.
    assert (Hread : forall e m, Script.spelled_alike e m = true ->
              Spec.same_letters (Script.erase m) (Script.text e) ->
              List.map (fun c => c) (Script.erase m)
              = List.map (fun c => c) (Script.text e)).
    { intros e m H _. unfold Script.spelled_alike in H.
      apply bool_decide_eq_true in H. now rewrite H. }
    pose proof (turns_segment_text (fun c => c) Script.spelled_alike
                  Hread _ _ Htok' Hno Hsame w Hw) as H.
    now rewrite segment_text_plain, !List.map_id in H.
Qed.

(** C1 at work on two entities, one occurrence of which is spelled in
    lower case. *)
Lemma C1_reconstruction_witness :
  let alice := Script.Entity "Alice"%js "PERSON"%js "a person"%js in
  let paris := Script.Entity "Paris"%js "LOCATION"%js "a city"%js in
  let input := "Alice met alice in Paris."%js in
  Forall (fun e => Script.token_free (Script.text e) = true) [alice; paris] /\
  Script.avoids_markup input [alice; paris] = true /\
  exists w,
    Script.trace input [alice; paris] = Some w /\
    Script.segment_text w = "Alice met Alice in Paris."%js /\
    Spec.same_letters (Script.segment_text w) input.
Proof.
  intros alice paris input.
  assert (H1 : Forall (fun e => Script.token_free (Script.text e) = true)
                 [alice; paris]) by (repeat constructor).
  assert (H2 : Script.avoids_markup input [alice; paris] = true)
    by (vm_compute; reflexivity).
  split; [exact H1|]. split; [exact H2|].
  destruct (C1_reconstruction input [alice; paris] H1 H2)
    as (w & Hw & _ & Hsame & _).
  exists w. split; [exact Hw|]. split; [|exact Hsame].
  vm_compute in Hw. injection Hw as <-. vm_compute. reflexivity.
Defined.

(** The spelling of the matches is enough for the exact reconstruction,
    and not needed: here the first turn respells "AB" as "ab" and the
    second turn, which finds that "ab" inside the span, spells it "AB"
    again. *)
Lemma same_spelling_not_needed :
  let lower := Script.Entity "ab"%js "X"%js "lower"%js in
  let upper := Script.Entity "AB"%js "Y"%js "upper"%js in
  let input := "AB xab"%js in
  Script.avoids_markup input [lower; upper] = true /\
  Script.same_spelling input [lower; upper] = false /\
  exists w,
    Script.trace input [lower; upper] = Some w /\
    Script.segment_text w = input.
Proof.
  intros lower upper input. split; [vm_compute; reflexivity|].
  split; [vm_compute; reflexivity|].
  eexists. split; vm_compute; reflexivity.
Qed.

(** C2.  The program breaks the claim on entities of which one is the
    beginning of the other: with "New York" before "New" in the list, both
    have their last occurrence at offset 0, "New York" is wrapped first,
    and the second turn finds "New" inside the span of the first and wraps
    it again. *)
Theorem C2_nested_annotation :
  let york := Script.Entity "New York"%js "LOCATION"%js "a city"%js in
  let new := Script.Entity "New"%js "MISC"%js "an adjective"%js in
  let input := "New York"%js in
  Script.highlightEntities input [york; new]
    = Some (Script.open_tag york
              ++ (Script.open_tag new ++ "New"%js ++ Script.close_tag)
              ++ " York"%js ++ Script.close_tag,
            [york; new]) /\
  Script.only_plain input [york; new] = false /\
  exists w,
    Script.trace_one (Some (Script.mark Script.Plain input)) york = Some w /\
    Script.turn_matches new w = [(62, 65)] /\
    JS.substring w 62 65 = Script.mark Script.Shown "New"%js.
Proof.
  intros york new input. split; [vm_compute; reflexivity|].
  split; [vm_compute; reflexivity|].
  eexists. split; [vm_compute; reflexivity|].
  split; vm_compute; reflexivity.
Qed.

(** * [mockSummarizeText] *)

Lemma split_nonempty (sep : ascii) (s : jsstring) : JS.split sep s <> [].
Proof.
  destruct s as [|c s]; cbn [JS.split]; [discriminate|].
  destruct (JS.ascii_eqb c sep); [discriminate|].
  destruct (JS.split sep s); discriminate.
Qed.

(** The pieces of [split], joined by the separator, are the text. *)
Lemma join_split (sep : ascii) (s : jsstring) :
  JS.join [sep] (JS.split sep s) = s.
Proof.
  induction s as [|c s IH]; [reflexivity|]. cbn [JS.split].
  pose proof (split_nonempty sep s) as Hne.
  destruct (JS.ascii_eqb c sep) eqn:E.
  - apply ascii_eqb_true in E as ->. cbn [JS.join].
    destruct (JS.split sep s) as [|piece pieces]; [congruence|].
    rewrite IH. reflexivity.
  - destruct (JS.split sep s) as [|piece pieces]; [congruence|].
    cbn [JS.join] in *. destruct pieces; cbn [app]; now rewrite <- IH.
Qed.

(** No piece holds the separator. *)
Lemma split_pieces (sep : ascii) (s : jsstring) :
  Forall (fun piece => forallb (fun c => negb (JS.ascii_eqb c sep)) piece = true)
    (JS.split sep s).
Proof.
  induction s as [|c s IH]; [repeat constructor|]. cbn [JS.split].
  destruct (JS.ascii_eqb c sep) eqn:E; [now constructor|].
  destruct (JS.split sep s) as [|piece pieces]; [repeat constructor; cbn; now rewrite E|].
  inversion IH as [|? ? Hp Hps]; subst. constructor; [|exact Hps].
  cbn [forallb]. now rewrite E, Hp.
Qed.

Lemma split_length (sep : ascii) (s : jsstring) :
  length (JS.split sep s)
  = S (length (List.filter (fun c => JS.ascii_eqb c sep) s)).
Proof.
  induction s as [|c s IH]; [reflexivity|]. cbn [JS.split List.filter].
  destruct (JS.ascii_eqb c sep); cbn [length]; [now rewrite IH|].
  pose proof (split_nonempty sep s) as Hne.
  destruct (JS.split sep s); [congruence | exact IH].
Qed.

Lemma dropWhile_nil {A} (p : A -> bool) (s : list A) :
  JS.dropWhile p s = [] <-> forallb p s = true.
Proof.
  induction s as [|c s IH]; cbn [JS.dropWhile forallb]; [easy|].
  destruct (p c); [exact IH | easy].
Qed.

Lemma forallb_rev {A} (p : A -> bool) (s : list A) :
  forallb p (rev s) = forallb p s.
Proof.
  induction s as [|c s IH]; [reflexivity|].
  cbn [rev forallb]. rewrite forallb_app, IH. cbn [forallb].
  destruct (p c), (forallb p s); reflexivity.
Qed.

Lemma dropWhile_keeps {A} (p : A -> bool) (s : list A) :
  forallb p s = false -> forallb p (JS.dropWhile p s) = false.
Proof.
  induction s as [|c s IH]; cbn [JS.dropWhile forallb]; [easy|].
  destruct (p c) eqn:E; [exact IH|]. intros _. cbn [forallb]. now rewrite E.
Qed.

(** [trim] leaves nothing exactly of the texts that are white space. *)
Lemma trim_has_text (s : jsstring) :
  (0 <? length (JS.trim s)) = NLPAssistant.has_text s.
Proof.
  unfold NLPAssistant.has_text, JS.trim.
  destruct (forallb JS.isWhiteSpace s) eqn:E.
  - apply dropWhile_nil in E. now rewrite E.
  - apply dropWhile_keeps in E. rewrite <- forallb_rev in E.
    apply dropWhile_keeps in E. rewrite <- forallb_rev in E.
    destruct (rev _); [discriminate | reflexivity].
Qed.

Lemma sentences_of_has_text (text : jsstring) :
  NLPAssistant.sentences_of text
  = List.filter NLPAssistant.has_text (JS.split "."%char text).
Proof.
  unfold NLPAssistant.sentences_of. apply List.filter_ext.
  intros s. apply trim_has_text.
Qed.

Lemma map_filter_comm {A B} (g : A -> B) (p : B -> bool) (l : list A) :
  List.map g (List.filter (fun x => p (g x)) l) = List.filter p (List.map g l).
Proof.
  induction l as [|x l IH]; [reflexivity|]. cbn [List.filter List.map].
  destruct (p (g x)); cbn [List.map]; now rewrite IH.
Qed.

Lemma filter_sublist {A} (p : A -> bool) (l : list A) :
  sublist (List.filter p l) l.
Proof.
  induction l as [|x l IH]; [constructor|]. cbn [List.filter].
  destruct (p x); now constructor.
Qed.

(** C9, as the specification states it, fails: the sentences are kept as
    they stand between the periods, with their white space. *)
Lemma C9_counterexample :
  NLPAssistant.sentences_of "A. B."%js = ["A"%js; " B"%js] /\
  Spec.sentences "A. B."%js = ["A"%js; "B"%js] /\
  NLPAssistant.sentences_of "A. B."%js <> Spec.sentences "A. B."%js.
Proof.
  split; [reflexivity|]. split; [reflexivity|]. vm_compute. discriminate.
Qed.

(** C9, amended.  The text is cut at every period and nowhere else; the
    pieces that are empty or white space are dropped and the others are
    kept untrimmed, in their order.  Trimming the kept pieces gives the
    sentences of the specification. *)
Theorem C9_segmentation (text : jsstring) :
  let pieces := JS.split "."%char text in
  JS.join "."%js pieces = text /\
  Forall (fun piece =>
            forallb (fun c => negb (JS.ascii_eqb c "."%char)) piece = true)
    pieces /\
  NLPAssistant.sentences_of text = List.filter NLPAssistant.has_text pieces /\
  sublist (NLPAssistant.sentences_of text) pieces /\
  List.map JS.trim (NLPAssistant.sentences_of text) = Spec.sentences text.
Proof.
  intros pieces. split; [apply join_split|].
  split; [apply split_pieces|].
  split; [apply sentences_of_has_text|].
  split; [apply filter_sublist|].
  unfold NLPAssistant.sentences_of, Spec.sentences.
  apply (map_filter_comm JS.trim (fun s => 0 <? length s)).
Qed.

(** C3, as the specification states it, fails on its example: the selected
    sentences are the pieces between the periods, without the period and
    with their white space. *)
Lemma C3_counterexample :
  NLPAssistant.selected "A. B. C. D. E."%js = ["A"%js; " B"%js; " C"%js] /\
  NLPAssistant.selected "A. B. C. D. E."%js <> ["A."%js; "B."%js; "C."%js] /\
  NLPAssistant.summary (NLPAssistant.mockSummarizeText "A. B. C. D. E."%js)
    = "A.  B.  C."%js.
Proof.
  split; [reflexivity|]. split; [vm_compute; discriminate | reflexivity].
Qed.

(** C3, amended.  The summary is made of the first [min 3 totalSentences]
    sentences of the text, in their order ([mockSummarizeText] has no
    ratio parameter); [sentences_used] is their number and is at most
    [total_sentences].  For "A. B. C. D. E." the selection is
    "A", " B", " C" and the summary "A.  B.  C.", with 3 sentences used
    out of 5. *)
Theorem C3_first_three (text : jsstring) :
  let r := NLPAssistant.mockSummarizeText text in
  NLPAssistant.total_sentences r = length (NLPAssistant.sentences_of text) /\
  NLPAssistant.sentences_used r = Nat.min 3 (NLPAssistant.total_sentences r) /\
  NLPAssistant.selected text
    = take (NLPAssistant.sentences_used r) (NLPAssistant.sentences_of text) /\
  NLPAssistant.selected text `prefix_of` NLPAssistant.sentences_of text /\
  NLPAssistant.sentences_used r = length (NLPAssistant.selected text) /\
  NLPAssistant.sentences_used r <= NLPAssistant.total_sentences r /\
  NLPAssistant.summary r
    = JS.join ". "%js (NLPAssistant.selected text) ++ "."%js /\
  let r5 := NLPAssistant.mockSummarizeText "A. B. C. D. E."%js in
  NLPAssistant.selected "A. B. C. D. E."%js = ["A"%js; " B"%js; " C"%js] /\
  NLPAssistant.summary r5 = "A.  B.  C."%js /\
  NLPAssistant.sentences_used r5 = 3 /\
  NLPAssistant.total_sentences r5 = 5.
Proof.
  intros r. cbn [r NLPAssistant.mockSummarizeText NLPAssistant.summary
    NLPAssistant.total_sentences NLPAssistant.sentences_used].
  unfold NLPAssistant.selected.
  split; [reflexivity|]. split; [reflexivity|]. split; [reflexivity|].
  split; [apply prefix_take|].
  split; [rewrite length_take; lia|].
  split; [lia|]. split; [reflexivity|].
  repeat split; reflexivity.
Qed.

(** C4, as the specification states it, fails: for the empty text the
    quotient is 1/0, and for another text without sentence it is the
    inverse of the length of the text. *)
Lemma C4_counterexample :
  NLPAssistant.sentences_of ""%js = [] /\
  NLPAssistant.compression_ratio (NLPAssistant.mockSummarizeText ""%js)
    = JS.Infinity /\
  JS.is_zero
    (NLPAssistant.compression_ratio (NLPAssistant.mockSummarizeText ""%js))
    = false /\
  NLPAssistant.sentences_of "..."%js = [] /\
  NLPAssistant.compression_ratio (NLPAssistant.mockSummarizeText "..."%js)
    = JS.Finite (1 # 3).
Proof. repeat split; reflexivity. Qed.

(** C4, amended.  For a text without sentence the selection is empty, no
    sentence is used out of none, and the summary is a lone period; the
    compression ratio is 1 divided by the length of the text, which is
    never 0 and is [Infinity] for the empty text; nothing is raised.  The
    caller [summarizeText] refuses the empty text and does not call
    [mockSummarizeText] on it. *)
Theorem C4_no_sentence (text : jsstring) :
  NLPAssistant.sentences_of text = [] ->
  let r := NLPAssistant.mockSummarizeText text in
  NLPAssistant.selected text = [] /\
  NLPAssistant.summary r = "."%js /\
  NLPAssistant.total_sentences r = 0 /\
  NLPAssistant.sentences_used r = 0 /\
  NLPAssistant.compression_ratio r
    = match text with
      | [] => JS.Infinity
      | _ :: _ => JS.Finite (1 # Pos.of_nat (length text))
      end /\
  JS.is_zero (NLPAssistant.compression_ratio r) = false /\
  NLPAssistant.summarizeText ""%js = None.
Proof.
  intros H r. unfold NLPAssistant.selected.
  cbn [r NLPAssistant.mockSummarizeText NLPAssistant.summary
    NLPAssistant.total_sentences NLPAssistant.sentences_used
    NLPAssistant.compression_ratio].
  rewrite H. cbn [length Nat.min take JS.join app].
  repeat split; destruct text; reflexivity.
Qed.

(** C4 on a text of three periods. *)
Lemma C4_no_sentence_witness :
  NLPAssistant.sentences_of "..."%js = [] /\
  NLPAssistant.summary (NLPAssistant.mockSummarizeText "..."%js) = "."%js /\
  NLPAssistant.compression_ratio (NLPAssistant.mockSummarizeText "..."%js)
    = JS.Finite (1 # 3).
Proof.
  assert (H : NLPAssistant.sentences_of "..."%js = []) by reflexivity.
  split; [exact H|].
  destruct (C4_no_sentence "..."%js H) as (_ & Hs & _ & _ & Hr & _).
  split; [exact Hs | exact Hr].
Defined.

(** C8, as the specification states it, fails on the example of the
    specification: the summary "A.  B.  C." has three words, and
    [summary_length] is 5, the number of pieces between its spaces. *)
Lemma C8_counterexample :
  let r := NLPAssistant.mockSummarizeText "A. B. C. D. E."%js in
  NLPAssistant.summary r = "A.  B.  C."%js /\
  Spec.word_count (NLPAssistant.summary r) = 3 /\
  NLPAssistant.summary_length r = 5 /\
  NLPAssistant.summary_length r <> Spec.word_count (NLPAssistant.summary r).
Proof.
  intros r. split; [reflexivity|]. split; [reflexivity|].
  split; [reflexivity|]. vm_compute. discriminate.
Qed.

(** C8, amended.  For a text that is not empty, [original_length] is the
    number of pieces between the space characters of the text, one more
    than the number of its spaces, [summary_length] is the same count for
    the summary, and [compression_ratio] is the length of the summary in
    characters divided by the length of the text in characters. *)
Theorem C8_metrics (text : jsstring) :
  text <> [] ->
  let r := NLPAssistant.mockSummarizeText text in
  NLPAssistant.original_length r = S (NLPAssistant.spaces text) /\
  NLPAssistant.summary_length r
    = S (NLPAssistant.spaces (NLPAssistant.summary r)) /\
  NLPAssistant.compression_ratio r
    = JS.Finite (Z.of_nat (length (NLPAssistant.summary r))
                   # Pos.of_nat (length text)).
Proof.
  intros Hne r.
  cbn [r NLPAssistant.mockSummarizeText NLPAssistant.summary
    NLPAssistant.original_length NLPAssistant.summary_length
    NLPAssistant.compression_ratio].
  unfold NLPAssistant.spaces. rewrite !split_length.
  split; [reflexivity|]. split; [reflexivity|].
  destruct text; [congruence | reflexivity].
Qed.

(** C8 on the example of the specification. *)
Lemma C8_metrics_witness :
  let r := NLPAssistant.mockSummarizeText "A. B. C. D. E."%js in
  NLPAssistant.original_length r = 5 /\
  NLPAssistant.summary_length r = 5 /\
  NLPAssistant.compression_ratio r = JS.Finite (10 # 14).
Proof.
  intros r.
  destruct (C8_metrics "A. B. C. D. E."%js) as (H1 & H2 & H3);
    [discriminate|].
  split; [exact H1|]. split; [exact H2 | exact H3].
Defined.

(** * Further properties of the code *)

(** ** One turn of the replacement *)

Lemma scan_ordered (r : JS.regex) (s : jsstring) (fuel i : nat) :
  StronglySorted Notions.before (JS.scan fuel r s i).
Proof.
  revert i; induction fuel as [|fuel IH]; intros i; cbn [JS.scan];
    [constructor|].
  destruct (length s <? i); [constructor|].
  destruct (JS.exec_at r s i) as [e|] eqn:E; [|apply IH].
  constructor; [apply IH|].
  apply List.Forall_forall. intros [p q] Hin.
  apply scan_sound in Hin as (_ & Hp & _).
  apply match_atoms_bounds in E as [Hie _].
  unfold Notions.before. cbn [fst snd].
  destruct (Nat.eqb_spec e i); lia.
Qed.

(** X1.  The occurrences that one turn of [highlightEntities] replaces lie
    inside the text, come in the order of the text and do not overlap. *)
Theorem matches_in_order (r : JS.regex) (s : jsstring) :
  StronglySorted Notions.before (JS.matches r s) /\
  Forall (fun m => fst m <= snd m /\ snd m <= length s) (JS.matches r s).
Proof.
  split; [apply scan_ordered|].
  apply List.Forall_forall. intros [p q] Hin.
  apply scan_sound in Hin as (E & _ & Hp).
  apply match_atoms_bounds in E. cbn [fst snd]. lia.
Qed.

Lemma matches_from_complete (r : JS.regex) (s : jsstring) (n i p q : nat) :
  p - i <= n -> i <= p -> p <= length s ->
  JS.exec_at r s p = Some q ->
  In (p, q) (JS.matches_from r s i) \/
  exists p0 q0, In (p0, q0) (JS.matches_from r s i) /\ p0 < p /\ p < q0.
Proof.
  revert i; induction n as [|n IH]; intros i Hn Hi Hp Hex.
  - assert (i = p) as -> by lia.
    rewrite matches_from_unfold.
    destruct (Nat.ltb_spec (length s) p); [lia|].
    rewrite Hex. left. now left.
  - destruct (decide (i = p)) as [->|Hne]; [apply (IH p); lia || exact Hex|].
    rewrite matches_from_unfold.
    destruct (Nat.ltb_spec (length s) i); [lia|].
    destruct (JS.exec_at r s i) as [e|] eqn:E.
    + pose proof (match_atoms_bounds _ _ _ _ _ E) as [Hie _].
      destruct (decide (p < e)) as [Hpe|Hpe].
      * right. exists i, e. split; [now left | lia].
      * destruct (IH (if e =? i then S i else e)) as [H'|(p0 & q0 & H' & Hlt)];
          try (destruct (Nat.eqb_spec e i); lia); try exact Hex.
        -- left. now right.
        -- right. exists p0, q0. split; [now right | exact Hlt].
    + destruct (IH (S i)) as [H'|(p0 & q0 & H' & Hlt)];
        try lia; try exact Hex.
      * now left.
      * right. now exists p0, q0.
Qed.

(** X2.  One turn misses no occurrence: every offset at which the pattern
    of the entity matches is the start of a replaced occurrence, unless it
    lies inside an occurrence replaced before it. *)
Theorem matches_complete (r : JS.regex) (s : jsstring) (p q : nat) :
  p <= length s ->
  JS.exec_at r s p = Some q ->
  In (p, q) (JS.matches r s) \/
  exists p0 q0, In (p0, q0) (JS.matches r s) /\ p0 < p /\ p < q0.
Proof.
  intros Hp Hex. rewrite matches_from_0.
  apply (matches_from_complete r s p 0 p q); lia || exact Hex.
Qed.

Lemma matches_complete_witness :
  let s := "Apple released new Apple Watch."%js in
  19 <= length s /\
  JS.exec_at (Script.literal "apple"%js) s 19 = Some 24 /\
  In (19, 24) (JS.matches (Script.literal "apple"%js) s).
Proof.
  intros s.
  assert (H1 : 19 <= length s) by (vm_compute; lia).
  assert (H2 : JS.exec_at (Script.literal "apple"%js) s 19 = Some 24)
    by (vm_compute; reflexivity).
  split; [exact H1|]. split; [exact H2|].
  destruct (matches_complete _ s 19 24 H1 H2) as [H|(p0 & q0 & H & Hlt)];
    [exact H|].
  vm_compute in H.
  destruct H as [[= <- <-]|[[= <- <-]|[]]]; lia.
Defined.

(** ** Entities that the text does not hold *)

Lemma wrap_absent (h : jsstring) (e : Script.entity) :
  (forall p, ~ Spec.same_letters
                 (JS.substring h p (p + length (Script.text e)))
                 (Script.text e)) ->
  Script.wrap h e = h.
Proof.
  intros Habs. unfold Script.wrap, JS.replace.
  destruct (JS.matches (Script.literal (Script.text e)) h) as [|[p q] ms] eqn:E.
  - cbn [JS.splice]. apply drop_0.
  - assert (Hin : In (p, q) (JS.matches (Script.literal (Script.text e)) h))
      by (rewrite E; now left).
    apply scan_sound in Hin as [Hex _].
    apply exec_literal in Hex as (-> & Hsame & _).
    now destruct (Habs p).
Qed.

(** X3.  When the text of no entity occurs in the input, in any letter
    case, the call raises nothing and returns the input as it is. *)
Theorem highlight_absent (input : jsstring) (entities : list Script.entity) :
  Forall (fun e => forall p,
            ~ Spec.same_letters
                (JS.substring input p (p + length (Script.text e)))
                (Script.text e)) entities ->
  fst <$> Script.highlightEntities input entities = Some input.
Proof.
  intros Habs. rewrite highlightEntities_eq.
  cbn [fmap option_fmap option_map fst]. f_equal.
  assert (Hs : Forall (fun e => forall p,
            ~ Spec.same_letters
                (JS.substring input p (p + length (Script.text e)))
                (Script.text e))
            (JS.sort (Script.by_last_occurrence input) entities)).
  { eapply Permutation_Forall; [|exact Habs].
    apply (sort_perm (fun e => JS.lastIndexOf input (Script.text e))). }
  induction Hs as [|e es He Hes IH]; [reflexivity|].
  cbn [foldl]. now rewrite wrap_absent.
Qed.

Lemma highlight_absent_witness :
  let paris := Script.Entity "Paris"%js "LOCATION"%js "a city"%js in
  fst <$> Script.highlightEntities "hi"%js [paris] = Some "hi"%js.
Proof.
  intros paris. apply highlight_absent.
  constructor; [|constructor]. intros p. unfold Spec.same_letters.
  intros H. apply (f_equal length) in H.
  rewrite !length_map in H. unfold JS.substring in H.
  rewrite length_take, length_drop in H.
  change (length (Script.text paris)) with 5 in H.
  change (length "hi"%js) with 2 in H. lia.
Defined.

(** ** The order of the list *)

Lemma sorted_unique {A} (key : A -> Z) (l1 l2 : list A) :
  StronglySorted (Spec.descending key) l1 ->
  StronglySorted (Spec.descending key) l2 ->
  Permutation l1 l2 -> NoDup (List.map key l1) -> l1 = l2.
Proof.
  intros H1; revert l2; induction H1 as [|x l1 Hl1 IH Hx];
    intros l2 H2 Hperm Hnd.
  - now apply Permutation_nil in Hperm.
  - destruct H2 as [|y l2 Hl2 Hy].
    { symmetry in Hperm. now apply Permutation_nil in Hperm. }
    cbn [List.map] in Hnd. apply NoDup_cons in Hnd as [Hnx Hnd].
    assert (Hxy : x = y).
    { assert (Hyin : In y (x :: l1)).
      { eapply Permutation_in; [symmetry; exact Hperm | now left]. }
      assert (Hxin : In x (y :: l2)).
      { eapply Permutation_in; [exact Hperm | now left]. }
      destruct Hyin as [Heq|Hyin]; [exact Heq|].
      destruct Hxin as [Heq|Hxin]; [now symmetry|].
      rewrite List.Forall_forall in Hx, Hy.
      pose proof (Hx y Hyin) as Ha. pose proof (Hy x Hxin) as Hb.
      unfold Spec.descending in Ha, Hb.
      exfalso. apply Hnx. apply list_elem_of_In.
      replace (key x) with (key y) by lia.
      now apply List.in_map. }
    subst y. f_equal. apply IH; [exact Hl2 | | exact Hnd].
    now apply Permutation_cons_inv in Hperm.
Qed.

(** X4.  When the texts of the entities have their last occurrences at
    pairwise different offsets, the result does not depend on the order in
    which the caller lists the entities. *)
Theorem highlight_any_order (input : jsstring)
  (entities entities' : list Script.entity) :
  Permutation entities entities' ->
  NoDup (List.map (fun e => JS.lastIndexOf input (Script.text e)) entities) ->
  Script.highlightEntities input entities
  = Script.highlightEntities input entities'.
Proof.
  intros Hperm Hnd. rewrite !highlightEntities_eq.
  set (key := fun e => JS.lastIndexOf input (Script.text e)) in *.
  assert (Heq : JS.sort (Script.by_last_occurrence input) entities
                = JS.sort (Script.by_last_occurrence input) entities').
  { apply (sorted_unique key).
    - apply (sort_sorted key).
    - apply (sort_sorted key).
    - etransitivity; [symmetry; apply (sort_perm key)|].
      etransitivity; [exact Hperm | apply (sort_perm key)].
    - assert (Hp : Permutation (List.map key entities)
                (List.map key
                   (JS.sort (Script.by_last_occurrence input) entities)))
        by apply Permutation_map, (sort_perm key).
      now rewrite <- Hp. }
  now rewrite Heq.
Qed.

Lemma highlight_any_order_witness :
  let a := Script.Entity "a"%js "X"%js "first"%js in
  let b := Script.Entity "b"%js "Y"%js "second"%js in
  Script.highlightEntities "a b"%js [a; b]
  = Script.highlightEntities "a b"%js [b; a].
Proof.
  intros a b. apply highlight_any_order.
  - apply perm_swap.
  - vm_compute. repeat constructor; rewrite ?list_elem_of_In; cbn; lia.
Defined.

(** ** A single entity *)

(** X5.  With a single entity whose text holds no token of the
    replacement string, the texts of the segments of the result always
    give the input up to letter case. *)
Theorem single_entity_reconstruction (input : jsstring) (e : Script.entity) :
  Script.token_free (Script.text e) = true ->
  exists w,
    Script.trace input [e] = Some w /\
    fst <$> Script.highlightEntities input [e] = Some (Script.erase w) /\
    Spec.same_letters (Script.segment_text w) input.
Proof.
  intros Htok.
  destruct (trace_erase input [e]) as (w & Hw & He).
  exists w. split; [exact Hw|]. split; [exact He|].
  pose proof (avoids_markup_one input e) as Hno.
  unfold Script.avoids_markup, Script.run_ok, Script.trace in *.
  cbn [JS.sort JS.insert_sorted] in *.
  pose proof (turns_segment_text JS.Canonicalize Script.no_markup
                (fun e m _ H => H) [e] _
                (Forall_cons_2 _ _ _ Htok (Forall_nil_2 _)) Hno Hno w Hw) as H.
  now rewrite segment_text_plain in H.
Qed.

Lemma single_entity_reconstruction_witness :
  let apple := Script.Entity "Apple"%js "ORG"%js "A tech company"%js in
  exists w,
    Script.trace "apple pie"%js [apple] = Some w /\
    Spec.same_letters (Script.segment_text w) "apple pie"%js.
Proof.
  intros apple.
  destruct (single_entity_reconstruction "apple pie"%js apple eq_refl)
    as (w & Hw & _ & Hsame).
  now exists w.
Defined.

(** ** The chart after the highlighting *)

Lemma labelled_perm_length (l : jsstring) (es es' : list Script.entity) :
  Permutation es es' ->
  length (Script.labelled l es) = length (Script.labelled l es').
Proof.
  unfold Script.labelled.
  induction 1 as [|x es es' _ IH|x y es|es es' es'' _ IH1 _ IH2];
    cbn [List.filter].
  - reflexivity.
  - destruct (bool_decide _); cbn [length]; now rewrite IH.
  - destruct (bool_decide _), (bool_decide _); reflexivity.
  - now rewrite IH1.
Qed.

Lemma count_label_inherited (acc : option (gmap jsstring nat))
  (es : list Script.entity) :
  Exists (fun e => Script.label e ∈ Script.inherited_keys) es ->
  foldl Script.count_label acc es = None.
Proof.
  assert (Hnone : forall es', foldl Script.count_label None es' = None).
  { induction es' as [|e es' IH]; [reflexivity | exact IH]. }
  intros Hex; revert acc; induction Hex as [e es He|e es _ IH]; intros acc.
  - cbn [foldl]. unfold Script.count_label at 2.
    destruct acc as [m|]; cbn [mbind option_bind]; [|apply Hnone].
    rewrite bool_decide_eq_true_2 by exact He. apply Hnone.
  - cbn [foldl]. apply IH.
Qed.

(** The chart does not depend on the order of the entities. *)
Lemma createEntityChart_perm (es es' : list Script.entity) :
  Permutation es es' ->
  Script.createEntityChart es = Script.createEntityChart es'.
Proof.
  intros Hperm. unfold Script.createEntityChart.
  destruct (decide (Forall (fun e => Script.label e ∉ Script.inherited_keys) es))
    as [Hall|Hnot].
  - pose proof (Permutation_Forall Hperm Hall) as Hall'.
    destruct (count_label_spec es ∅ Hall) as (m & -> & Hm).
    destruct (count_label_spec es' ∅ Hall') as (m' & -> & Hm').
    f_equal. apply map_eq. intros l.
    now rewrite Hm, Hm', (labelled_perm_length l es es' Hperm).
  - apply not_Forall_Exists in Hnot; [|intros e; apply _].
    assert (Hex : Exists (fun e => Script.label e ∈ Script.inherited_keys) es).
    { eapply Exists_impl; [exact Hnot|]. intros e He. cbn in He.
      destruct (decide (Script.label e ∈ Script.inherited_keys)); tauto. }
    assert (Hex' : Exists (fun e => Script.label e ∈ Script.inherited_keys) es')
      by (now rewrite <- Hperm).
    rewrite (count_label_inherited _ es Hex).
    now rewrite (count_label_inherited _ es' Hex').
Qed.

(** X6.  [extractEntities] counts the labels on the array that
    [highlightEntities] has just reordered.  When no label names a
    property of [Object.prototype], the count of every label is the one
    of the list as [nlp.extractEntities] returned it, the number of its
    entities of that label: the reordering changes no count.  (The order
    of the keys, which follows the reordered array, is not covered.) *)
Theorem chart_after_highlight (input : jsstring)
  (entities : list Script.entity) :
  Forall (fun e => Script.label e ∉ Script.inherited_keys) entities ->
  exists h after counts,
    Script.highlightEntities input entities = Some (h, after) /\
    Script.createEntityChart after = Some counts /\
    Script.createEntityChart entities = Some counts /\
    forall l, counts !! l =
      match length (Script.labelled l entities) with
      | O => None
      | S n => Some (S n)
      end.
Proof.
  intros Hall.
  destruct (count_label_spec entities ∅ Hall) as (counts & Hc & Hl).
  eexists _, _, counts. split; [apply highlightEntities_eq|].
  split; [|split; [exact Hc|]].
  - rewrite <- Hc. symmetry. apply createEntityChart_perm.
    apply (sort_perm (fun e => JS.lastIndexOf input (Script.text e))).
  - intros l. rewrite Hl, lookup_empty. reflexivity.
Qed.

Lemma chart_after_highlight_witness :
  let a := Script.Entity "a"%js "X"%js "first"%js in
  let b := Script.Entity "b"%js "Y"%js "second"%js in
  exists h counts,
    Script.highlightEntities "a b"%js [a; b] = Some (h, [b; a]) /\
    Script.createEntityChart [b; a] = Some counts /\
    Script.createEntityChart [a; b] = Some counts /\
    counts !! "X"%js = Some 1 /\ counts !! "Y"%js = Some 1.
Proof.
  intros a b.
  destruct (chart_after_highlight "a b"%js [a; b])
    as (h & after & counts & Hh & Ha & Hb & Hl).
  - repeat constructor; vm_compute; intros H;
      repeat (apply elem_of_cons in H as [H|H]; [discriminate|]);
      now apply elem_of_nil in H.
  - vm_compute in Hh. injection Hh as <- <-.
    eexists _, counts. split; [vm_compute; reflexivity|].
    split; [exact Ha|]. split; [exact Hb|]. now rewrite !Hl.
Defined.

Lemma total_count (m : gmap jsstring nat) (l : jsstring) :
  Notions.total (<[l := default 0 (m !! l) + 1]> m) = S (Notions.total m).
Proof.
  unfold Notions.total.
  destruct (m !! l) as [n|] eqn:E; cbn [default]; unfold id.
  - rewrite <- (insert_delete_id m l n E) at 2.
    rewrite <- insert_delete_eq.
    rewrite !map_fold_insert_L;
      first [apply lookup_delete_eq | intros; lia].
  - rewrite map_fold_insert_L; first [exact E | intros; lia].
Qed.

Lemma foldl_count_total (es : list Script.entity) (m0 m : gmap jsstring nat) :
  foldl Script.count_label (Some m0) es = Some m ->
  Notions.total m = Notions.total m0 + length es.
Proof.
  revert m0; induction es as [|e es IH]; intros m0 H.
  - injection H as <-. cbn [length]. lia.
  - cbn [foldl] in H. unfold Script.count_label at 2 in H.
    cbn [mbind option_bind] in H.
    destruct (bool_decide (Script.label e ∈ Script.inherited_keys)).
    + assert (Hn : forall es', foldl Script.count_label None es' = None).
      { induction es' as [|e' es' IH']; [reflexivity | exact IH']. }
      rewrite Hn in H. discriminate.
    + apply IH in H. rewrite H, total_count. cbn [length]. lia.
Qed.

(** X7.  When no label names a property of [Object.prototype], the
    counts of the chart add up to the number of entities: every entity is
    counted once, under its label. *)
Theorem chart_total (entities : list Script.entity) :
  Forall (fun e => Script.label e ∉ Script.inherited_keys) entities ->
  exists counts,
    Script.createEntityChart entities = Some counts /\
    Notions.total counts = length entities.
Proof.
  intros Hall.
  destruct (count_label_spec entities ∅ Hall) as (counts & Hc & _).
  exists counts. split; [exact Hc|].
  apply foldl_count_total in Hc. rewrite Hc.
  unfold Notions.total. now rewrite map_fold_empty.
Qed.

Lemma chart_total_witness :
  let a := Script.Entity "Apple"%js "ORG"%js "A tech company"%js in
  let b := Script.Entity "Paris"%js "LOCATION"%js "a city"%js in
  let c := Script.Entity "Google"%js "ORG"%js "a company"%js in
  exists counts,
    Script.createEntityChart [a; b; c] = Some counts /\
    Notions.total counts = 3.
Proof.
  intros a b c. apply (chart_total [a; b; c]).
  repeat constructor; vm_compute; intros H;
    repeat (apply elem_of_cons in H as [H|H]; [discriminate|]);
    now apply elem_of_nil in H.
Defined.

(** ** The text that [summarizeText] passes on *)

Lemma dropWhile_head {A} (p : A -> bool) (s : list A) (c : A) :
  head (JS.dropWhile p s) = Some c -> p c = false.
Proof.
  induction s as [|d s IH]; cbn [JS.dropWhile]; [discriminate|].
  destruct (p d) eqn:E; [exact IH|]. cbn. now intros [= <-].
Qed.

Lemma dropWhile_id {A} (p : A -> bool) (s : list A) :
  (forall c, head s = Some c -> p c = false) -> JS.dropWhile p s = s.
Proof.
  destruct s as [|d s]; [reflexivity|]. intros H. cbn [JS.dropWhile].
  now rewrite (H d eq_refl).
Qed.

Lemma dropWhile_last {A} (p : A -> bool) (l : list A) (c : A) :
  p c = false -> exists l', JS.dropWhile p (l ++ [c]) = l' ++ [c].
Proof.
  intros Hc. induction l as [|d l IH]; cbn [app JS.dropWhile].
  - rewrite Hc. now exists [].
  - destruct (p d); [exact IH|]. now exists (d :: l).
Qed.

Lemma last_rev {A} (l : list A) : last (rev l) = head l.
Proof. destruct l as [|x l]; [reflexivity|]. cbn [rev]. apply last_snoc. Qed.

Lemma head_rev {A} (l : list A) : head (rev l) = last l.
Proof. rewrite <- (rev_involutive l) at 2. symmetry. apply last_rev. Qed.

Lemma trim_head (s : jsstring) (c : ascii) :
  head (JS.trim s) = Some c -> JS.isWhiteSpace c = false.
Proof.
  unfold JS.trim.
  destruct (JS.dropWhile JS.isWhiteSpace s) as [|d r] eqn:E; [discriminate|].
  assert (Hd : JS.isWhiteSpace d = false).
  { apply (dropWhile_head _ s). now rewrite E. }
  cbn [rev].
  destruct (dropWhile_last JS.isWhiteSpace (rev r) d Hd) as (l' & ->).
  rewrite rev_app_distr. cbn. now intros [= <-].
Qed.

Lemma trim_last (s : jsstring) (c : ascii) :
  last (JS.trim s) = Some c -> JS.isWhiteSpace c = false.
Proof.
  unfold JS.trim. rewrite last_rev. apply dropWhile_head.
Qed.

Lemma trim_trim (s : jsstring) : JS.trim (JS.trim s) = JS.trim s.
Proof.
  unfold JS.trim at 1.
  rewrite (dropWhile_id _ (JS.trim s)) by apply trim_head.
  rewrite dropWhile_id; [apply rev_involutive|].
  intros c. rewrite head_rev. apply trim_last.
Qed.

Lemma trim_nil (s : jsstring) :
  JS.trim s = [] <-> forallb JS.isWhiteSpace s = true.
Proof.
  pose proof (trim_has_text s) as H. unfold NLPAssistant.has_text in H.
  destruct (forallb JS.isWhiteSpace s), (JS.trim s); cbn in H;
    split; congruence.
Qed.

(** X8.  [summarizeText] refuses exactly the inputs made of white space,
    the empty one included.  Any other input is summarized after
    trimming: the text that reaches [mockSummarizeText] neither begins nor
    ends with white space, and trimming it again changes nothing. *)
Theorem summarizeText_guard (value : jsstring) :
  NLPAssistant.summarizeText value
  = (if forallb JS.isWhiteSpace value then None
     else Some (NLPAssistant.mockSummarizeText (JS.trim value))) /\
  JS.trim (JS.trim value) = JS.trim value /\
  (forall c, head (JS.trim value) = Some c -> JS.isWhiteSpace c = false) /\
  (forall c, last (JS.trim value) = Some c -> JS.isWhiteSpace c = false).
Proof.
  split; [|split; [apply trim_trim | split; [apply trim_head | apply trim_last]]].
  unfold NLPAssistant.summarizeText.
  destruct (forallb JS.isWhiteSpace value) eqn:E.
  - apply trim_nil in E. now rewrite E.
  - destruct (JS.trim value) eqn:Et; [|reflexivity].
    apply trim_nil in Et. congruence.
Qed.

(** ** The length of the summary *)

Lemma length_join (sep : jsstring) (l : list jsstring) :
  length (JS.join sep l)
  = list_sum (List.map length l) + length sep * Nat.pred (length l).
Proof.
  induction l as [|piece l IH]; [cbn; lia|].
  cbn [JS.join]. destruct l as [|piece' l]; [cbn; lia|].
  rewrite !length_app, IH. cbn [List.map length Nat.pred].
  unfold list_sum. cbn [fold_right]. nia.
Qed.

Lemma text_length_pieces (text : jsstring) :
  length text
  = list_sum (List.map length (JS.split "."%char text))
    + Nat.pred (length (JS.split "."%char text)).
Proof.
  rewrite <- (join_split "."%char text) at 1.
  rewrite length_join. cbn [length]. lia.
Qed.




Lemma sublist_lengths (l1 l2 : list jsstring) :
  sublist l1 l2 ->
  list_sum (List.map length l1) <= list_sum (List.map length l2) /\
  length l1 <= length l2.
Proof.
  induction 1 as [|x l1 l2 _ IH|x l1 l2 _ IH]; cbn [List.map length];
    unfold list_sum in *; cbn [fold_right]; lia.
Qed.

(** X10.  Whatever the text, the summary is at most three characters
    longer than the text: at most one for each sentence used, or one for
    the period that is the whole summary of a text without sentence. *)
Theorem summary_length_bound (text : jsstring) :
  let r := NLPAssistant.mockSummarizeText text in
  length (NLPAssistant.summary r)
    <= length text + Nat.max 1 (NLPAssistant.sentences_used r) /\
  NLPAssistant.sentences_used r <= 3.
Proof.
  intros r.
  cbn [r NLPAssistant.mockSummarizeText NLPAssistant.summary
    NLPAssistant.sentences_used].
  split; [|lia].
  set (k := Nat.min 3 (length (NLPAssistant.sentences_of text))).
  assert (Hsub : sublist (take k (NLPAssistant.sentences_of text))
                   (JS.split "."%char text)).
  { etransitivity; [apply sublist_take|].
    unfold NLPAssistant.sentences_of. apply filter_sublist. }
  apply sublist_lengths in Hsub as [Hsum Hlen].
  assert (Hk : length (take k (NLPAssistant.sentences_of text)) = k).
  { rewrite length_take. unfold k. lia. }
  rewrite Hk in Hlen.
  rewrite length_app, length_join, Hk, (text_length_pieces text).
  cbn [length].
  destruct k as [|k'].
  - destruct (take 0 (NLPAssistant.sentences_of text)) eqn:E;
      [|discriminate]. cbn. lia.
  - cbn [Nat.pred Nat.max]. lia.
Qed.

(** ** Summarizing a summary *)

Lemma split_piece (sep : ascii) (piece rest : jsstring) :
  forallb (fun c => negb (JS.ascii_eqb c sep)) piece = true ->
  JS.split sep (piece ++ sep :: rest) = piece :: JS.split sep rest.
Proof.
  induction piece as [|c piece IH]; cbn [forallb app JS.split].
  - intros _. now rewrite ascii_eqb_refl.
  - intros [Hc Hp]%andb_true_iff. apply negb_true_iff in Hc.
    now rewrite Hc, (IH Hp).
Qed.

Lemma join_cons (sep : jsstring) (first : jsstring) (others : list jsstring) :
  JS.join sep (first :: others)
  = first ++ flat_map (fun s => sep ++ s) others.
Proof.
  revert first; induction others as [|s others IH]; intros first.
  - cbn. now rewrite app_nil_r.
  - change (JS.join sep (first :: s :: others))
      with (first ++ sep ++ JS.join sep (s :: others)).
    rewrite (IH s). cbn [flat_map]. now rewrite <- !app_assoc.
Qed.

Lemma split_summary (first : jsstring) (others : list jsstring) :
  Forall (fun piece =>
            forallb (fun c => negb (JS.ascii_eqb c "."%char)) piece = true)
    (first :: others) ->
  JS.split "."%char (JS.join ". "%js (first :: others) ++ "."%js)
  = first :: List.map (fun s => " "%char :: s) others ++ [[]].
Proof.
  rewrite join_cons.
  revert first; induction others as [|s others IH]; intros first Hl;
    inversion Hl as [|? ? Hf Hrest]; subst.
  - cbn [flat_map List.map app]. rewrite app_nil_r.
    change (first ++ "."%js) with (first ++ "."%char :: []).
    now rewrite split_piece.
  - cbn [flat_map List.map]. rewrite <- !app_assoc.
    change (". "%js ++ ?x) with ("."%char :: (" "%char :: x)).
    rewrite split_piece by exact Hf. f_equal.
    rewrite app_comm_cons, app_assoc. rewrite <- app_comm_cons.
    apply (IH (" "%char :: s)).
    inversion Hrest as [|? ? Hs Ho]; subst.
    constructor; [|exact Ho]. cbn [forallb]. now rewrite Hs.
Qed.

Lemma sentences_of_pieces (text : jsstring) :
  Forall (fun s =>
            forallb (fun c => negb (JS.ascii_eqb c "."%char)) s = true /\
            NLPAssistant.has_text s = true)
    (NLPAssistant.sentences_of text).
Proof.
  rewrite sentences_of_has_text.
  pose proof (split_pieces "."%char text) as H.
  induction H as [|piece pieces Hp _ IH]; [constructor|].
  cbn [List.filter]. destruct (NLPAssistant.has_text piece) eqn:E;
    [constructor; [now split | exact IH] | exact IH].
Qed.

Lemma filter_spaced (others : list jsstring) :
  Forall (fun s => NLPAssistant.has_text s = true) others ->
  List.filter NLPAssistant.has_text
    (List.map (fun s => " "%char :: s) others ++ [[]])
  = List.map (fun s => " "%char :: s) others.
Proof.
  induction 1 as [|s others Hs _ IH]; [reflexivity|].
  cbn [List.map app List.filter].
  change (NLPAssistant.has_text (" "%char :: s))
    with (NLPAssistant.has_text s).
  now rewrite Hs, IH.
Qed.

(** X11.  Summarizing a summary keeps all its sentences: the summary of a
    text has exactly [sentences_used] sentences, and they are the
    sentences used, each of the later ones behind one more space. *)
Theorem summary_of_summary (text : jsstring) :
  let r := NLPAssistant.mockSummarizeText text in
  let r' := NLPAssistant.mockSummarizeText (NLPAssistant.summary r) in
  NLPAssistant.sentences_of (NLPAssistant.summary r)
  = match NLPAssistant.selected text with
    | [] => []
    | first :: others => first :: List.map (fun s => " "%char :: s) others
    end /\
  NLPAssistant.total_sentences r' = NLPAssistant.sentences_used r /\
  NLPAssistant.sentences_used r' = NLPAssistant.sentences_used r.
Proof.
  intros r r'.
  assert (Hsel : Forall (fun s =>
            forallb (fun c => negb (JS.ascii_eqb c "."%char)) s = true /\
            NLPAssistant.has_text s = true) (NLPAssistant.selected text))
    by apply Forall_take, sentences_of_pieces.
  assert (Hk : NLPAssistant.sentences_used r
               = length (NLPAssistant.selected text)).
  { unfold NLPAssistant.selected. rewrite length_take.
    cbn [r NLPAssistant.mockSummarizeText NLPAssistant.sentences_used]. lia. }
  assert (H3 : NLPAssistant.sentences_used r <= 3).
  { cbn [r NLPAssistant.mockSummarizeText NLPAssistant.sentences_used]. lia. }
  assert (Hs : NLPAssistant.sentences_of (NLPAssistant.summary r)
    = match NLPAssistant.selected text with
      | [] => []
      | first :: others => first :: List.map (fun s => " "%char :: s) others
      end).
  { change (NLPAssistant.summary r)
      with (JS.join ". "%js (NLPAssistant.selected text) ++ "."%js).
    rewrite sentences_of_has_text.
    destruct (NLPAssistant.selected text) as [|first others]; [reflexivity|].
    rewrite split_summary
      by (eapply Forall_impl; [exact Hsel | now intros s [? _]]).
    inversion Hsel as [|? ? [_ Hf] Ho]; subst.
    cbn [List.filter]. rewrite Hf. f_equal. apply filter_spaced.
    eapply Forall_impl; [exact Ho | now intros s [_ ?]]. }
  split; [exact Hs|].
  assert (Ht : NLPAssistant.total_sentences r'
               = NLPAssistant.sentences_used r).
  { cbn [r' NLPAssistant.mockSummarizeText NLPAssistant.total_sentences].
    rewrite Hs, Hk.
    destruct (NLPAssistant.selected text); cbn [length];
      [reflexivity | now rewrite length_map]. }
  split; [exact Ht|].
  change (NLPAssistant.sentences_used r')
    with (Nat.min 3 (NLPAssistant.total_sentences r')).
  rewrite Ht. lia.
Qed.

(** * [mockAnswerQuestion] *)






(** * The usage counters *)

Lemma trackAll_spec (names : list jsstring) (m : gmap jsstring nat) :
  Forall (fun name => name ∉ Script.inherited_keys) names ->
  exists m', UsageStats.trackAll m names = Some m' /\
    forall tool, m' !! tool
      = (fun n => n + UsageStats.calls tool names) <$> m !! tool.
Proof.
  unfold UsageStats.trackAll.
  intros H; revert m; induction H as [|name names Hn _ IH]; intros m.
  - exists m. split; [reflexivity|]. intros tool.
    destruct (m !! tool); cbn; [f_equal; lia | reflexivity].
  - cbn [foldl mbind option_bind]. unfold UsageStats.trackUsage at 2.
    rewrite bool_decide_eq_false_2 by exact Hn.
    unfold UsageStats.calls. cbn [List.filter].
    destruct (m !! name) as [n|] eqn:E.
    + destruct (IH (<[name := S n]> m)) as (m' & -> & Hm').
      exists m'. split; [reflexivity|]. intros tool. rewrite Hm'.
      unfold UsageStats.calls.
      destruct (decide (name = tool)) as [->|Hne].
      * rewrite bool_decide_eq_true_2 by reflexivity.
        rewrite lookup_insert_eq, E. cbn. f_equal. lia.
      * rewrite bool_decide_eq_false_2 by exact Hne.
        now rewrite lookup_insert_ne by exact Hne.
    + destruct (IH m) as (m' & -> & Hm').
      exists m'. split; [reflexivity|]. intros tool. rewrite Hm'.
      unfold UsageStats.calls.
      destruct (decide (name = tool)) as [->|Hne].
      * rewrite bool_decide_eq_true_2 by reflexivity. now rewrite E.
      * now rewrite bool_decide_eq_false_2 by exact Hne.
Qed.

(** X13.  After any series of calls of [trackUsage], from the initial
    counters, there are counters for the three tools only, and each holds
    the number of calls that named its tool; a call with another name
    leaves no trace. *)
Theorem usage_counts (names : list jsstring) :
  Forall (fun name => name ∉ Script.inherited_keys) names ->
  exists stats,
    UsageStats.trackAll UsageStats.initializeUsageStats names = Some stats /\
    forall tool, stats !! tool =
      if bool_decide (tool ∈ [ "Text Classification"%js;
                               "Text Generation"%js;
                               "Sentiment Analysis"%js ])
      then Some (UsageStats.calls tool names) else None.
Proof.
  intros H.
  destruct (trackAll_spec names UsageStats.initializeUsageStats H)
    as (stats & Hs & Hl).
  exists stats. split; [exact Hs|]. intros tool. rewrite Hl.
  unfold UsageStats.initializeUsageStats.
  destruct (decide (tool = "Text Classification"%js)) as [->|H1];
    [reflexivity|].
  rewrite lookup_insert_ne by congruence.
  destruct (decide (tool = "Text Generation"%js)) as [->|H2];
    [reflexivity|].
  rewrite lookup_insert_ne by congruence.
  destruct (decide (tool = "Sentiment Analysis"%js)) as [->|H3];
    [reflexivity|].
  rewrite lookup_insert_ne, lookup_empty by congruence.
  rewrite bool_decide_eq_false_2; [reflexivity|].
  rewrite !elem_of_cons, elem_of_nil. tauto.
Qed.

Lemma usage_counts_witness :
  exists stats,
    UsageStats.trackAll UsageStats.initializeUsageStats
      [ "Text Generation"%js; "Summarization"%js; "Text Generation"%js ]
      = Some stats /\
    stats !! "Text Generation"%js = Some 2 /\
    stats !! "Text Classification"%js = Some 0 /\
    stats !! "Summarization"%js = None.
Proof.
  destruct (usage_counts
              [ "Text Generation"%js; "Summarization"%js;
                "Text Generation"%js ]) as (stats & Hs & Hl).
  - repeat constructor; vm_compute; intros H;
      repeat (apply elem_of_cons in H as [H|H]; [discriminate|]);
      now apply elem_of_nil in H.
  - exists stats. split; [exact Hs|]. now rewrite !Hl.
Defined.

(** * [classifyText] *)

Lemma category_index (random : Q) :
  (0 <= random)%Q -> (random < 1)%Q ->
  (0 <= Qfloor (random * inject_Z 8) < 8)%Z.
Proof.
  intros H0 H1. split.
  - change 0%Z with (Qfloor (inject_Z 0)) at 1. apply Qfloor_resp_le.
    apply Qmult_le_0_compat; [exact H0 | discriminate].
  - rewrite Zlt_Qlt. eapply Qle_lt_trans; [apply Qfloor_le|].
    apply Qlt_le_trans with (1 * inject_Z 8)%Q;
      [apply Qmult_lt_compat_r; [reflexivity | exact H1]|].
    vm_compute. discriminate.
Qed.

(** X14.  [classifyText] changes nothing for an input of white space.
    For any other input, and any number drawn in [0, 1), it adds one to the
    counter of the classification, leaves the other counters alone and
    classifies the trimmed text under one of the eight categories: the
    draw never falls outside the list. *)
Theorem classifyText_result (stats : gmap jsstring nat) (random : Q)
  (confidence : JS.number) (value : jsstring) (n : nat) :
  (0 <= random)%Q -> (random < 1)%Q ->
  stats !! "Text Classification"%js = Some n ->
  (forallb JS.isWhiteSpace value = true /\
   Classification.classifyText stats random confidence value
     = Some (stats, None)) \/
  (forallb JS.isWhiteSpace value = false /\
   exists r c,
     Classification.classifyText stats random confidence value
       = Some (<["Text Classification"%js := S n]> stats, Some r) /\
     Classification.category r = Some c /\
     c ∈ Classification.categories /\
     Classification.text_length r = length (JS.trim value) /\
     1 <= Classification.word_count r).
Proof.
  intros H0 H1 Hn. unfold Classification.classifyText.
  destruct (forallb JS.isWhiteSpace value) eqn:E.
  - left. split; [reflexivity|]. apply trim_nil in E. now rewrite E.
  - right. split; [reflexivity|].
    destruct (JS.trim value) as [|c0 t] eqn:Et.
    { apply trim_nil in Et. congruence. }
    unfold UsageStats.trackUsage.
    rewrite bool_decide_eq_false_2.
    2:{ vm_compute. intros H.
        repeat (apply elem_of_cons in H as [H|H]; [discriminate|]).
        now apply elem_of_nil in H. }
    rewrite Hn. cbn [mbind option_bind].
    pose proof (category_index random H0 H1) as [Hlo Hhi].
    assert (Hlt : Z.to_nat (Qfloor (random * inject_Z 8))
                  < length Classification.categories)
      by (cbn [Classification.categories length]; lia).
    apply lookup_lt_is_Some_2 in Hlt as [c Hc].
    eexists _, c. split; [reflexivity|].
    cbn [Classification.mockClassifyText Classification.category
      Classification.text_length Classification.word_count].
    change (inject_Z (Z.of_nat (length Classification.categories)))
      with (inject_Z 8).
    destruct (Z.ltb_spec (Qfloor (random * inject_Z 8)) 0); [lia|].
    split; [exact Hc|]. split; [now apply list_elem_of_lookup_2 in Hc|].
    split; [reflexivity|]. rewrite split_length. lia.
Qed.

Lemma classifyText_result_witness :
  exists r,
    Classification.classifyText UsageStats.initializeUsageStats (7 # 8)
      (JS.Finite (9 # 10)) " on the pitch "%js
      = Some (<["Text Classification"%js := 1]>
                UsageStats.initializeUsageStats, Some r) /\
    Classification.category r = Some "personal"%js /\
    Classification.text_length r = 12.
Proof.
  destruct (classifyText_result UsageStats.initializeUsageStats (7 # 8)
              (JS.Finite (9 # 10)) " on the pitch "%js 0)
    as [[H _]|(_ & r & c & Hr & Hc & _ & Hl & _)].
  - discriminate.
  - reflexivity.
  - reflexivity.
  - discriminate.
  - exists r. split; [exact Hr|]. split; [|exact Hl].
    vm_compute in Hr. injection Hr as <-. reflexivity.
Defined.

(** * Texts without sentence *)

Lemma blank_pieces_chars (s : jsstring) :
  forallb (forallb JS.isWhiteSpace) (JS.split "."%char s)
  = forallb Notions.blank_or_period s.
Proof.
  induction s as [|c s IH]; [reflexivity|]. cbn [JS.split forallb].
  unfold Notions.blank_or_period at 1.
  destruct (JS.ascii_eqb c "."%char) eqn:E.
  - cbn [forallb]. rewrite orb_true_r. exact IH.
  - rewrite orb_false_r, <- IH.
    pose proof (split_nonempty "."%char s) as Hne.
    destruct (JS.split "."%char s) as [|piece pieces]; [congruence|].
    cbn [forallb]. now rewrite andb_assoc.
Qed.

Lemma filter_nil {A} (p : A -> bool) (l : list A) :
  List.filter p l = [] <-> forallb (fun x => negb (p x)) l = true.
Proof.
  induction l as [|x l IH]; cbn [List.filter forallb]; [easy|].
  destruct (p x); cbn [negb andb]; [easy | exact IH].
Qed.

Lemma no_sentence (text : jsstring) :
  NLPAssistant.sentences_of text = [] <->
  forallb Notions.blank_or_period text = true.
Proof.
  rewrite sentences_of_has_text, filter_nil, <- blank_pieces_chars.
  unfold NLPAssistant.has_text.
  induction (JS.split "."%char text) as [|x l IH]; [reflexivity|].
  cbn [forallb]. rewrite negb_involutive, !andb_true_iff, IH. reflexivity.
Qed.

(** X15.  The stock answer is given exactly for the contexts made of
    white space and periods only; and these are the texts in which
    [mockSummarizeText] finds no sentence. *)
Theorem stock_answer (confidence : JS.number) (context question : jsstring) :
  (QuestionAnswering.answer
     (QuestionAnswering.mockAnswerQuestion confidence context question)
   = QuestionAnswering.no_answer
   <-> forallb Notions.blank_or_period context = true) /\
  (NLPAssistant.total_sentences (NLPAssistant.mockSummarizeText context) = 0
   <-> forallb Notions.blank_or_period context = true).
Proof.
  split.
  - rewrite <- no_sentence.
    cbn [QuestionAnswering.mockAnswerQuestion QuestionAnswering.answer].
    change (List.filter (fun s => 0 <? length (JS.trim s))
              (JS.split "."%char context))
      with (NLPAssistant.sentences_of context).
    pose proof (sentences_of_pieces context) as Hp.
    destruct (NLPAssistant.sentences_of context) as [|a rest];
      [easy|].
    split; [|discriminate]. intros Heq. exfalso.
    inversion Hp as [|? ? [Hdot Htext] _]; subst.
    destruct a as [|c a]; [discriminate|].
    cbn [QuestionAnswering.first_or] in Heq. rewrite Heq in Hdot.
    vm_compute in Hdot. discriminate.
  - rewrite <- no_sentence.
    cbn [NLPAssistant.mockSummarizeText NLPAssistant.total_sentences].
    destruct (NLPAssistant.sentences_of context); cbn [length];
      split; congruence.
Qed.

(** * An entity with an empty text *)

(** X16.  An entity whose text is empty is matched, with an empty match,
    at every word boundary of the text and nowhere else: the turn puts an
    empty span at each of them. *)
Theorem empty_text_matches (s : jsstring) (p q : nat) :
  In (p, q) (JS.matches (Script.literal []) s) <->
  q = p /\ p <= length s /\ JS.atWordBoundary s p = true.
Proof.
  split.
  - intros Hin. apply scan_sound in Hin as (Hex & _ & Hp).
    apply exec_literal in Hex as (-> & _ & Hb & _).
    cbn [length]. rewrite Nat.add_0_r. easy.
  - intros (-> & Hp & Hb).
    assert (Hex : JS.exec_at (Script.literal []) s p = Some p).
    { apply exec_literal. cbn [length]. rewrite Nat.add_0_r.
      split; [reflexivity|]. split; [|now split].
      unfold Spec.same_letters, JS.substring. now rewrite Nat.sub_diag. }
    destruct (matches_complete _ s p p Hp Hex) as [H|(p0 & q0 & H & Hlt)];
      [exact H|].
    apply scan_sound in H as (Hex0 & _).
    apply exec_literal in Hex0 as (-> & _). cbn [length] in Hlt. lia.
Qed.
